(** * Stewart acid-base calculator: formula library, aggregator, stack builder

    A shallow embedding of the calculator's JavaScript sources
    ([js/physiology.js], [js/units.js], [js/compute.js], [js/gamblegram.js])
    and the properties its design document states about them.

    Numbers.  A JavaScript number is modelled as a real number or [NaN]:
    arithmetic on finite numbers is the exact arithmetic of [R], and every
    operator yields [NaN] as soon as an operand is [NaN].  Rounding to
    binary64 and overflow to an infinity are outside the model; [parse] and
    [getIonSI] hand the aggregator a finite number or [NaN] only
    ([Number.isFinite(v) ? v : NaN]). *)

From Stdlib Require Import Reals Lra Lia ZArith List String Bool Sorted.
From Stdlib Require Import Permutation.
Import ListNotations.
Local Open Scope R_scope.

(* ================================================================== *)
(** ** JavaScript numbers *)
(* ================================================================== *)

Module Js.

Inductive number : Type :=
| Num (r : R)
| NaN.

Definition lift1 (f : R -> R) (x : number) : number :=
  match x with Num a => Num (f a) | NaN => NaN end.

Definition lift2 (f : R -> R -> R) (x y : number) : number :=
  match x, y with Num a, Num b => Num (f a b) | _, _ => NaN end.

Definition add : number -> number -> number := lift2 Rplus.
Definition sub : number -> number -> number := lift2 Rminus.
Definition mul : number -> number -> number := lift2 Rmult.
Definition neg : number -> number := lift1 Ropp.

(** [x / y].  A zero divisor would give an infinity (or [NaN]) in
    JavaScript; the type has no infinity and maps that case to [NaN].  No
    divisor of the program is zero (see [div_Num] and its uses). *)
Definition div (x y : number) : number :=
  match x, y with
  | Num a, Num b => if Req_dec_T b 0 then NaN else Num (a / b)
  | _, _ => NaN
  end.

(** [Math.pow(10, x)] *)
Definition pow10 (x : R) : R := Rpower 10 x.
Definition Math_pow10 : number -> number := lift1 pow10.

(** [Math.round(x)]: the nearest integer, halves rounded up. *)
Definition Math_round : number -> number :=
  lift1 (fun x => IZR (Zfloor (x + 1 / 2))).

(** [Math.abs(x)] *)
Definition Math_abs : number -> number := lift1 Rabs.

(** [Math.max(x, y)] *)
Definition Math_max : number -> number -> number := lift2 Rmax.

(** [parseFloat(x.toFixed(2))]: for [x >= 0], [toFixed] takes the integer
    [n] for which [n / 100 - x] is closest to zero, the larger one on a tie;
    a negative [x] is printed as ["-"] followed by the digits of [-x]. *)
Definition toFixed2_nonneg (x : R) : R :=
  IZR (Zfloor (x * 100 + 1 / 2)) / 100.

Definition toFixed2 : number -> number :=
  lift1 (fun x =>
           if Rlt_dec x 0 then - toFixed2_nonneg (- x) else toFixed2_nonneg x).

(** [Number.isFinite(x)] *)
Definition isFinite (x : number) : bool :=
  match x with Num _ => true | NaN => false end.

(** Truthiness of a number: [NaN] and [0] are falsy. *)
Definition truthy (x : number) : bool :=
  match x with
  | Num r => if Req_dec_T r 0 then false else true
  | NaN => false
  end.

(** [x || 0] *)
Definition or0 (x : number) : number :=
  if truthy x then x else Num 0.

(** [x > y] and [x < y]: false when an operand is [NaN]. *)
Definition gt (x y : number) : bool :=
  match x, y with
  | Num a, Num b => if Rlt_dec b a then true else false
  | _, _ => false
  end.

Definition lt (x y : number) : bool := gt y x.

End Js.

Import Js.
Coercion Num : R >-> number.

Declare Scope js_scope.
Delimit Scope js_scope with js.
Bind Scope js_scope with number.
Notation "x + y" := (add x y) : js_scope.
Notation "x - y" := (sub x y) : js_scope.
Notation "x * y" := (mul x y) : js_scope.
Notation "x / y" := (div x y) : js_scope.
Notation "- x" := (neg x) : js_scope.

(* ================================================================== *)
(** ** js/physiology.js — the formula library *)
(* ================================================================== *)

Section Physiology.
Local Open Scope js_scope.

(** [hco3FromPHandPco2(pH, pCO2)] — Henderson–Hasselbalch. *)
Definition hco3FromPHandPco2 (pH pCO2 : number) : number :=
  0.03 * pCO2 * Math_pow10 (pH - 6.1).

Definition HIS_NB : list number :=
  [Num 7.12; Num 7.22; Num 7.10; Num 7.49; Num 7.01].

Definition HIS_STD : list number :=
  [Num 7.31; Num 6.75; Num 6.36; Num 4.85; Num 5.76;
   Num 6.17; Num 6.73; Num 5.82;
   Num 5.10; Num 6.70; Num 6.20].

(** [for (let i = 0; i < arr.length; i++) acc += f(arr[i])] *)
Definition accumulate (f : number -> number) (arr : list number)
    (acc : number) : number :=
  fold_left (fun s x => s + f x) arr acc.

(** [albuminCharge(albGperL, pH)] — Figge–Fencl v3.0. *)
Definition albuminCharge (albGperL pH : number) : number :=
  let albMM := albGperL / 66.5 in
  let NB := 0.4 * (1 - 1 / (1 + Math_pow10 (pH - 6.9))) in
  let his := 0 in
  let his :=
    accumulate (fun pKa => 1 / (1 + Math_pow10 (pH - (pKa - NB)))) HIS_NB his in
  let his :=
    accumulate (fun pKa => 1 / (1 + Math_pow10 (pH - pKa))) HIS_STD his in
  let lys :=
      2 / (1 + Math_pow10 (pH - 5.800))
    + 2 / (1 + Math_pow10 (pH - 6.150))
    + 2 / (1 + Math_pow10 (pH - 7.510))
    + 2 / (1 + Math_pow10 (pH - 7.685))
    + 1 / (1 + Math_pow10 (pH - 7.860))
    + 50 / (1 + Math_pow10 (pH - 10.30)) in
  let arg := 24 / (1 + Math_pow10 (pH - 12.5)) in
  let nh2 := 1 / (1 + Math_pow10 (pH - 8.0)) in
  let acooh := (-1)%R / (1 + Math_pow10 (3.1 - pH)) in
  let aspGlu := (-98)%R / (1 + Math_pow10 (3.9 - pH)) in
  let cys := (-1)%R / (1 + Math_pow10 (8.5 - pH)) in
  let tyr := (-18)%R / (1 + Math_pow10 (11.7 - pH)) in
  let netPerMol := his + lys + arg + nh2 + acooh + aspGlu + cys + tyr in
  - albMM * netPerMol.

(** [phosphateCharge(phos, pH)] — triprotic equilibrium. *)
Definition phosphateCharge (phos pH : number) : number :=
  let K1 := Math_pow10 (-1.915)%R in
  let K2 := Math_pow10 (-6.66)%R in
  let K3 := Math_pow10 (-11.78)%R in
  let H := Math_pow10 (- pH) in
  let d := H * H * H + K1 * H * H + K1 * K2 * H + K1 * K2 * K3 in
  let z := (K1 * H * H + 2 * K1 * K2 * H + 3 * K1 * K2 * K3) / d in
  phos * z.

End Physiology.

(* ================================================================== *)
(** ** js/units.js — unit conversion *)
(* ================================================================== *)

Section Units.
Local Open Scope js_scope.
Local Open Scope string_scope.

Definition MG_FACTOR : number := 10 / 24.305.
Definition CA_FACTOR : number := 10 / 40.08.
Definition LAC_FACTOR : number := 10 / 89.07.
Definition PO4_FACTOR : number := 10 / 30.97.

(** [displayToSI(id, value, unit)] *)
Definition displayToSI (id : string) (value : number) (unit : string)
    : number :=
  if negb (isFinite value) then NaN
  else if String.eqb unit "mgdl" then
    if String.eqb id "mg" then value * MG_FACTOR
    else if String.eqb id "ica" then value * CA_FACTOR
    else if String.eqb id "lac" then value * LAC_FACTOR
    else if String.eqb id "phos" then value * PO4_FACTOR
    else value
  else value.

(** [siToDisplay(id, si, unit)] *)
Definition siToDisplay (id : string) (si : number) (unit : string)
    : number :=
  if negb (isFinite si) then NaN
  else if String.eqb unit "mgdl" then
    if String.eqb id "mg" then si / MG_FACTOR
    else if String.eqb id "ica" then si / CA_FACTOR
    else if String.eqb id "lac" then si / LAC_FACTOR
    else if String.eqb id "phos" then si / PO4_FACTOR
    else si
  else si.

(** The form as the calculator reads it.  [field id] is what [parse(id)]
    returns on it: the finite number in the element [id] (or its picker),
    [NaN] when the element is missing, blank or not a finite number.
    [unit_select id] is the value of the unit selector [id + "-unit"],
    ["si"] when there is none. *)
Record Dom : Type := {
  field : string -> number;
  unit_select : string -> string;
  use_bmp_hco3 : bool;   (* the "use BMP HCO3" checkbox exists and is checked *)
  has_hco3 : bool        (* the element "hco3" exists *)
}.

(** [parse(id)] *)
Definition parse (d : Dom) (id : string) : number := field d id.

(** [el(id).value = ...], read back through [parse]. *)
Definition set_field (d : Dom) (id : string) (x : number) : Dom :=
  {| field := fun i => if String.eqb i id then x else field d i;
     unit_select := unit_select d;
     use_bmp_hco3 := use_bmp_hco3 d;
     has_hco3 := has_hco3 d |}.

(** [getIonSI(id)] *)
Definition getIonSI (d : Dom) (id : string) : number :=
  let raw := parse d id in
  if negb (isFinite raw) then NaN
  else
    let unit := unit_select d id in
    if String.eqb unit "mgdl" then
      if String.eqb id "mg" then raw * MG_FACTOR
      else if String.eqb id "ica" then raw * CA_FACTOR
      else if String.eqb id "lac" then raw * LAC_FACTOR
      else if String.eqb id "phos" then raw * PO4_FACTOR
      else raw
    else raw.

End Units.

(* ================================================================== *)
(** ** js/gamblegram.js — the stack builder of [renderGamblegram] *)
(* ================================================================== *)

(** The argument of [renderGamblegram]. *)
Module Vals.
Record t : Type := {
  Na : number; K : number; iCa : number; Mg_mmol : number;
  Cl : number; Lac : number; HCO3 : number;
  albMinus : number; piMinus : number; sig : number
}.
End Vals.

(** A stack item [{ k, v, c }]; the colour [c] is a style token read from
    the page and plays no part in the stacks' contents or order. *)
Record seg : Type := { k : string; v : number }.

Section Sort.
Context {A : Type} (cmp : A -> A -> number).

(** [arr.sort(cmp)] is stable: [x], which stood before every item of [l],
    is moved behind exactly the items the comparator puts before it
    ([cmp(x, y) > 0]). *)
Fixpoint sort_insert (x : A) (l : list A) : list A :=
  match l with
  | [] => [x]
  | y :: l' => if gt (cmp x y) 0 then y :: sort_insert x l' else x :: l
  end.

Definition sort (arr : list A) : list A := fold_right sort_insert [] arr.

End Sort.

Section Gamblegram.
Local Open Scope js_scope.
Local Open Scope string_scope.

Definition is_unknown (x : seg) : bool := String.eqb (k x) "Unknown".

(** [lift]: sort large to small, keep "Unknown" on top (drawn last). *)
Definition lift (arr : list seg) : list seg :=
  let known :=
    sort (fun a b => or0 (v b) - or0 (v a))
         (filter (fun x => negb (is_unknown x)) arr) in
  let unknown := filter is_unknown arr in
  (known ++ unknown)%list.

(** [sum]: [a.reduce((s, x) => s + (x.v || 0), 0)] *)
Definition sum (a : list seg) : number :=
  fold_left (fun s x => s + or0 (v x)) a 0.

(** What [renderGamblegram] builds before it draws. *)
Record Gram : Type := {
  cations : list seg;
  anions : list seg;
  totalC : number;
  totalA : number;
  maxStack : number
}.

(** [renderGamblegram(vals)], on a page that has the chart elements. *)
Definition renderGamblegram (vals : Vals.t) : Gram :=
  let Na := or0 (Vals.Na vals) in
  let K := or0 (Vals.K vals) in
  let iCa := or0 (Vals.iCa vals) in
  let Mg_mmol := or0 (Vals.Mg_mmol vals) in
  let Cl := or0 (Vals.Cl vals) in
  let Lac := or0 (Vals.Lac vals) in
  let HCO3 := or0 (Vals.HCO3 vals) in
  let albMinus := or0 (Vals.albMinus vals) in
  let piMinus := or0 (Vals.piMinus vals) in
  let sig := or0 (Vals.sig vals) in
  let cations :=
    [ {| k := "Na"; v := Na |};
      {| k := "K"; v := K |};
      {| k := "iCa"; v := iCa |};
      {| k := "Mg"; v := Mg_mmol |} ] in
  let anions :=
    [ {| k := "Cl"; v := Cl |};
      {| k := "Lactate"; v := Lac |};
      {| k := "HCO3"; v := HCO3 |};
      {| k := "Alb"; v := albMinus |};
      {| k := "Phos"; v := piMinus |} ] in
  let anions :=
    if gt sig 0.0001
    then (anions ++ [ {| k := "Unknown"; v := sig |} ])%list else anions in
  let cations :=
    if lt sig (-0.0001)%R
    then (cations ++ [ {| k := "Unknown"; v := Math_abs sig |} ])%list
    else cations in
  let cations := lift cations in
  let anions := lift anions in
  let totalC := sum cations in
  let totalA := sum anions in
  let maxStack := Math_max (Math_max totalC totalA) 1 in
  {| cations := cations; anions := anions;
     totalC := totalC; totalA := totalA; maxStack := maxStack |}.

End Gamblegram.

(* ================================================================== *)
(** ** js/compute.js — the aggregator [computeAll] *)
(* ================================================================== *)

(** The values [computeAll] derives, and the chart it hands them to. *)
Record Result : Type := {
  hco3FromGas : number;
  HCO3 : number;
  sidA : number;
  albMinus : number;
  piMinus : number;
  sidE : number;
  sig : number;
  ag : number;
  sidAR : number;
  sidER : number;
  sigR : number;
  ggHCO3 : number;
  vals : Vals.t;
  gram : Gram
}.

Section Compute.
Local Open Scope js_scope.
Local Open Scope string_scope.

Definition computeAll (d : Dom) : Result :=
  let Na := getIonSI d "na" in
  let K := getIonSI d "k" in
  let iCa := getIonSI d "ica" in
  let Mg := getIonSI d "mg" in
  let Cl := getIonSI d "cl" in
  let Lac := getIonSI d "lac" in
  let Alb := parse d "alb" in
  let Phos := getIonSI d "phos" in
  let pH := parse d "ph" in
  let pCO2 := parse d "pco2" in
  let hco3FromGas :=
    if isFinite pH && isFinite pCO2
    then hco3FromPHandPco2 pH pCO2 else NaN in
  let useBmp := use_bmp_hco3 d in
  let d :=
    if has_hco3 d then
      if useBmp then d
      else set_field d "hco3"
             (if isFinite hco3FromGas then toFixed2 hco3FromGas else NaN)
    else d in
  let HCO3 := parse d "hco3" in
  let HCO3 :=
    if negb (isFinite HCO3) && isFinite hco3FromGas
    then hco3FromGas else HCO3 in
  let sidA :=
    or0 Na + or0 K + 2 * or0 iCa + 2 * or0 Mg - or0 Cl - or0 Lac in
  let Alb_gL := if isFinite Alb then Alb * 10 else NaN in
  let albMinus :=
    if isFinite Alb_gL && isFinite pH then albuminCharge Alb_gL pH else 0 in
  let piMinus :=
    if isFinite Phos && isFinite pH then phosphateCharge Phos pH else 0 in
  let sidE := or0 HCO3 + albMinus + piMinus in
  let sig := sidA - sidE in
  let ag := or0 Na + or0 K - (or0 Cl + or0 HCO3) in
  let sidAR := Math_round (sidA * 10) / 10 in
  let sidER := Math_round (sidE * 10) / 10 in
  let sigR := Math_round (sig * 10) / 10 in
  let bmpVal := parse d "hco3" in
  let ggHCO3 :=
    if useBmp && isFinite bmpVal then bmpVal
    else if isFinite hco3FromGas then hco3FromGas
    else or0 HCO3 in
  let vals :=
    {| Vals.Na := Na; Vals.K := K;
       Vals.iCa := 2 * or0 iCa;
       Vals.Mg_mmol := 2 * (if isFinite Mg then Mg else 0);
       Vals.Cl := Cl; Vals.Lac := Lac;
       Vals.HCO3 := ggHCO3;
       Vals.albMinus := albMinus; Vals.piMinus := piMinus;
       Vals.sig := sigR |} in
  {| hco3FromGas := hco3FromGas; HCO3 := HCO3; sidA := sidA;
     albMinus := albMinus; piMinus := piMinus;
     sidE := sidE; sig := sig; ag := ag;
     sidAR := sidAR; sidER := sidER; sigR := sigR;
     ggHCO3 := ggHCO3; vals := vals;
     gram := renderGamblegram vals |}.

End Compute.

(* ================================================================== *)
(** ** The design document's formulas, on real numbers *)
(* ================================================================== *)

(** What a value adds to a sum: a blank reading adds nothing. *)
Definition val (x : number) : R :=
  match x with Num r => r | NaN => 0 end.

(** [x] lies within [tol] of [y]; never so for [NaN]. *)
Definition within (tol : R) (x y : number) : Prop :=
  match x, y with
  | Num a, Num b => Rabs (a - b) <= tol
  | _, _ => False
  end.

Module Spec.

(** Bicarbonate from the blood gas: [α·pCO2·10^(pH − pKa)]. *)
Definition alpha : R := 0.03.
Definition pKa_CO2 : R := 6.1.
Definition bicarbonate (pH pCO2 : R) : R :=
  alpha * pCO2 * pow10 (pH - pKa_CO2).

(** The residue inventory of albumin. *)
Inductive residue : Type :=
| His | Lys | Arg | NTerm | CTerm | AspGlu | Cys | Tyr.

Definition residue_eqb (a b : residue) : bool :=
  match a, b with
  | His, His | Lys, Lys | Arg, Arg | NTerm, NTerm
  | CTerm, CTerm | AspGlu, AspGlu | Cys, Cys | Tyr, Tyr => true
  | _, _ => false
  end.

Record group : Type := {
  res : residue;
  count : Z;
  pKa : R;
  shifted : bool   (* domain-1 histidine, pKa lowered by NB(pH) *)
}.

Definition basic_groups : list group :=
  [ {| res := His; count := 1; pKa := 7.12; shifted := true |};
    {| res := His; count := 1; pKa := 7.22; shifted := true |};
    {| res := His; count := 1; pKa := 7.10; shifted := true |};
    {| res := His; count := 1; pKa := 7.49; shifted := true |};
    {| res := His; count := 1; pKa := 7.01; shifted := true |};
    {| res := His; count := 1; pKa := 7.31; shifted := false |};
    {| res := His; count := 1; pKa := 6.75; shifted := false |};
    {| res := His; count := 1; pKa := 6.36; shifted := false |};
    {| res := His; count := 1; pKa := 4.85; shifted := false |};
    {| res := His; count := 1; pKa := 5.76; shifted := false |};
    {| res := His; count := 1; pKa := 6.17; shifted := false |};
    {| res := His; count := 1; pKa := 6.73; shifted := false |};
    {| res := His; count := 1; pKa := 5.82; shifted := false |};
    {| res := His; count := 1; pKa := 5.10; shifted := false |};
    {| res := His; count := 1; pKa := 6.70; shifted := false |};
    {| res := His; count := 1; pKa := 6.20; shifted := false |};
    {| res := Lys; count := 2; pKa := 5.800; shifted := false |};
    {| res := Lys; count := 2; pKa := 6.150; shifted := false |};
    {| res := Lys; count := 2; pKa := 7.510; shifted := false |};
    {| res := Lys; count := 2; pKa := 7.685; shifted := false |};
    {| res := Lys; count := 1; pKa := 7.860; shifted := false |};
    {| res := Lys; count := 50; pKa := 10.30; shifted := false |};
    {| res := Arg; count := 24; pKa := 12.5; shifted := false |};
    {| res := NTerm; count := 1; pKa := 8.0; shifted := false |} ].

Definition acidic_groups : list group :=
  [ {| res := CTerm; count := 1; pKa := 3.1; shifted := false |};
    {| res := AspGlu; count := 98; pKa := 3.9; shifted := false |};
    {| res := Cys; count := 1; pKa := 8.5; shifted := false |};
    {| res := Tyr; count := 18; pKa := 11.7; shifted := false |} ].

(** The conformational term [NB(pH) = 0.4 · (1 − 1/(1 + 10^(pH − 6.9)))]. *)
Definition NB (pH : R) : R := 0.4 * (1 - 1 / (1 + pow10 (pH - 6.9))).

(** Positive charge of a basic group: [count / (1 + 10^(pH − pKa))], the
    pKa of a shifted group lowered by [NB(pH)] first. *)
Definition basic_charge (pH : R) (g : group) : R :=
  IZR (count g)
  / (1 + pow10 (pH - (if shifted g then pKa g - NB pH else pKa g))).

(** Negative charge of an acidic group: [count / (1 + 10^(pKa − pH))]. *)
Definition acidic_charge (pH : R) (g : group) : R :=
  IZR (count g) / (1 + pow10 (pKa g - pH)).

Definition total (f : group -> R) (l : list group) : R :=
  fold_right (fun g s => f g + s) 0 l.

Definition net_charge (pH : R) : R :=
  total (basic_charge pH) basic_groups
  - total (acidic_charge pH) acidic_groups.

(** Albumin charge: the net charge scaled by [-(albumin_gPerL / 66.5)]. *)
Definition albumin (albumin_gPerL pH : R) : R :=
  - (albumin_gPerL / 66.5) * net_charge pH.

(** Residues of a kind, and the groups they are split into. *)
Definition groups_of (r : residue) : list group :=
  filter (fun g => residue_eqb (res g) r) (basic_groups ++ acidic_groups).

Definition residues (r : residue) : Z :=
  fold_right (fun g s => (count g + s)%Z) 0%Z (groups_of r).

(** Mean negative charge of phosphate,
    [z = (K1·H² + 2·K1·K2·H + 3·K1·K2·K3) / (H³ + K1·H² + K1·K2·H + K1·K2·K3)]
    with [H = 10^-pH]. *)
Definition z (pH : R) : R :=
  let H := pow10 (- pH) in
  let K1 := pow10 (- 1.915) in
  let K2 := pow10 (- 6.66) in
  let K3 := pow10 (- 11.78) in
  (K1 * H ^ 2 + 2 * K1 * K2 * H + 3 * K1 * K2 * K3)
  / (H ^ 3 + K1 * H ^ 2 + K1 * K2 * H + K1 * K2 * K3).

Definition phosphate (phosphate_mM pH : R) : R := phosphate_mM * z pH.

End Spec.

(* ================================================================== *)
(** ** Stacks and forms used in the statements *)
(* ================================================================== *)

(** The charge a segment shows. *)
Definition value (x : seg) : R := val (v x).

Definition unknown_seg (x : number) : seg := {| k := "Unknown"; v := x |}.

(** The ordering invariant of a built stack: the known segments first,
    each at least as large as the next, then the Unknown segment if there
    is one; every segment carries a finite number. *)
Definition stack_ordered (st : list seg) : Prop :=
  exists known unknown : list seg,
    st = known ++ unknown
    /\ Forall (fun x => is_unknown x = false) known
    /\ Sorted (fun a b => value b <= value a) known
    /\ (unknown = [] \/ exists u, unknown = [u] /\ is_unknown u = true)
    /\ Forall (fun x => isFinite (v x) = true) st.

(** The measured segments [renderGamblegram] starts each stack from. *)
Definition known_cations (vals : Vals.t) : list seg :=
  [ {| k := "Na"; v := or0 (Vals.Na vals) |};
    {| k := "K"; v := or0 (Vals.K vals) |};
    {| k := "iCa"; v := or0 (Vals.iCa vals) |};
    {| k := "Mg"; v := or0 (Vals.Mg_mmol vals) |} ].

Definition known_anions (vals : Vals.t) : list seg :=
  [ {| k := "Cl"; v := or0 (Vals.Cl vals) |};
    {| k := "Lactate"; v := or0 (Vals.Lac vals) |};
    {| k := "HCO3"; v := or0 (Vals.HCO3 vals) |};
    {| k := "Alb"; v := or0 (Vals.albMinus vals) |};
    {| k := "Phos"; v := or0 (Vals.piMinus vals) |} ].

(** The comparator [lift] sorts with. *)
Definition by_value_desc (a b : seg) : number :=
  sub (or0 (v b)) (or0 (v a)).

(** Chart values with every reading blank and [sig] alone given. *)
Definition only_sig (s : R) : Vals.t :=
  {| Vals.Na := NaN; Vals.K := NaN; Vals.iCa := NaN; Vals.Mg_mmol := NaN;
     Vals.Cl := NaN; Vals.Lac := NaN; Vals.HCO3 := NaN;
     Vals.albMinus := NaN; Vals.piMinus := NaN; Vals.sig := Num s |}.

(** A form in SI units with the bicarbonate field present and derived from
    the blood gas. *)
Definition form (f : string -> number) : Dom :=
  {| field := f;
     unit_select := fun _ => "si"%string;
     use_bmp_hco3 := false;
     has_hco3 := true |}.

(** The reference patient of the design document. *)
Definition reference_fields (id : string) : number :=
  if String.eqb id "na" then Num 140
  else if String.eqb id "k" then Num 4
  else if String.eqb id "ica" then Num 1.2
  else if String.eqb id "mg" then Num 0.5
  else if String.eqb id "cl" then Num 104
  else if String.eqb id "lac" then Num 1
  else if String.eqb id "alb" then Num 4
  else if String.eqb id "phos" then Num 1
  else if String.eqb id "ph" then Num 7.4
  else if String.eqb id "pco2" then Num 40
  else NaN.

Definition reference_form : Dom := form reference_fields.

(** A form on which only sodium is entered. *)
Definition sodium_only_form (na : R) : Dom :=
  form (fun id => if String.eqb id "na" then Num na else NaN).

(** SIDa as the earlier single-file version (app.js) summed it, without
    the valence factor. *)
Definition sidA_prior (d : Dom) : number :=
  (or0 (getIonSI d "na") + or0 (getIonSI d "k") + or0 (getIonSI d "ica")
   + or0 (getIonSI d "mg") - or0 (getIonSI d "cl")
   - or0 (getIonSI d "lac"))%js.

(* ================================================================== *)
(** ** js/helpers.js — what [parse] reads from an element *)
(* ================================================================== *)










(* ================================================================== *)
(** ** js/gamblegram.js — geometry, labels, legend and animation *)
(* ================================================================== *)

(** [Math.min(x, y)] *)
Definition Math_min : number -> number -> number := lift2 Rmin.

(** [Math.pow(x, 3)] *)
Definition Math_pow3 : number -> number := lift1 (fun x => x ^ 3).

Section Chart.
Local Open Scope js_scope.
Local Open Scope string_scope.


(** A target [{ item, ty, th }]. *)
Record target : Type := { item : seg; ty : number; th : number }.

(** [stack.map((item) => { const h = Math.max(10, (item.v / maxStack) * H);
    y -= h; return { item, ty: y, th: h }; })], [y] starting at [baseY]. *)
Fixpoint targets (maxStack H y : number) (stack : list seg) : list target :=
  match stack with
  | [] => []
  | it :: rest =>
      let h := Math_max 10 ((v it / maxStack) * H) in
      let y := y - h in
      {| item := it; ty := y; th := h |} :: targets maxStack H y rest
  end.

(** The attributes of a drawn [rect.gg-rect], as [parseFloat] reads them. *)
Record rect : Type := { rect_key : string; rect_y : number; rect_height : number }.

(** [prevRects]: an object from keys to [{ y, h }]. *)
Definition prev_rects : Type := string -> option (number * number).

(** [svg.querySelectorAll("rect.gg-rect").forEach((r) => { if (k)
    prevRects[k] = { y: parseFloat(..) || 0, h: parseFloat(..) || 0 } })] *)
Definition snapshot (rects : list rect) : prev_rects :=
  fold_left
    (fun (m : prev_rects) (r : rect) =>
       if String.eqb (rect_key r) "" then m
       else fun key =>
              if String.eqb key (rect_key r)
              then Some (or0 (rect_y r), or0 (rect_height r))
              else m key)
    rects (fun _ => None).

(** A label box [{ y, h }]. *)
Record box : Type := { box_y : number; box_h : number }.

(** One turn of the collision loop of [addSeg]. *)
Definition avoid (labelHalfH labelY : number) (b : box) : number :=
  let spacing := 2 in
  if lt (Math_abs (labelY - box_y b)) (labelHalfH + box_h b / 2 + spacing)
  then box_y b + box_h b / 2 + labelHalfH + spacing
  else labelY.

(** An entry of [anim], with the key of its rect and the place its label
    is first drawn at. *)
Record anim : Type := {
  anim_key : string;
  sY : number; sH : number;
  anim_ty : number; anim_th : number;
  label_y : number
}.

(** [addSeg(t, x, lx, anchor, boxes)]: the entry pushed on [anim] and the
    boxes after the push. *)
Definition addSeg (prevRects : prev_rects) (baseY fSizeNum : number)
    (t : target) (boxes : list box) : anim * list box :=
  let prev := prevRects (k (item t)) in
  let sH := match prev with Some p => Math_max 4 (snd p) | None => Num 8 end in
  let sY := match prev with Some p => fst p | None => baseY - sH end in
  let labelY := sY + sH / 2 in
  let labelHeight := fSizeNum * 1.2 in
  let labelHalfH := labelHeight / 2 in
  let labelY := fold_left (avoid labelHalfH) boxes labelY in
  ({| anim_key := k (item t); sY := sY; sH := sH;
      anim_ty := ty t; anim_th := th t; label_y := labelY |},
   (boxes ++ [ {| box_y := labelY; box_h := labelHeight |} ])%list).

(** [ts.forEach((t) => addSeg(t, .., boxes))] *)
Fixpoint addSegs (prevRects : prev_rects) (baseY fSizeNum : number)
    (ts : list target) (boxes : list box) : list anim :=
  match ts with
  | [] => []
  | t :: rest =>
      let '(a, boxes) := addSeg prevRects baseY fSizeNum t boxes in
      a :: addSegs prevRects baseY fSizeNum rest boxes
  end.

(** The entries of [anim] for a chart of height [H] above the baseline
    [baseY]: the cation column, then the anion column, each with label
    boxes of its own. *)
Definition animations (prevRects : prev_rects) (H baseY fSizeNum : number)
    (g : Gram) : list anim :=
  (addSegs prevRects baseY fSizeNum
     (targets (maxStack g) H baseY (cations g)) []
   ++ addSegs prevRects baseY fSizeNum
        (targets (maxStack g) H baseY (anions g)) [])%list.

(** The legend: [anions.concat(cations).filter((x) => { if (seen.has(x.k))
    return false; seen.add(x.k); return true; })] *)
Fixpoint unseen (seen : list string) (l : list seg) : list seg :=
  match l with
  | [] => []
  | x :: rest =>
      if existsb (String.eqb (k x)) seen then unseen seen rest
      else x :: unseen (k x :: seen) rest
  end.

Definition legend (g : Gram) : list seg :=
  unseen [] (anions g ++ cations g)%list.

(** [ease]: ease-out cubic. *)
Definition DUR : number := 360.
Definition ease (t : number) : number := 1 - Math_pow3 (1 - t).

(** What [tick] writes on one rect and its label. *)
Record frame : Type := {
  frame_y : number; frame_height : number; frame_text_y : number
}.

Definition progress (t0 now : number) : number :=
  Math_min 1 ((now - t0) / DUR).

Definition draw (e : number) (a : anim) : frame :=
  let cy := sY a + (anim_ty a - sY a) * e in
  let ch := sH a + (anim_th a - sH a) * e in
  {| frame_y := cy; frame_height := Math_max 1 ch;
     frame_text_y := cy + ch / 2 |}.

(** [tick(now)]: the frames drawn, and whether another frame is asked
    for ([p < 1]). *)
Definition tick (t0 now : number) (anims : list anim) : list frame * bool :=
  let p := progress t0 now in
  let e := ease p in
  (map (draw e) anims, lt p 1).

(** The rects on the page once [tick] has drawn [frames] for [anims]. *)
Definition drawn (anims : list anim) (frames : list frame) : list rect :=
  map (fun af : anim * frame =>
         {| rect_key := anim_key (fst af);
            rect_y := frame_y (snd af);
            rect_height := frame_height (snd af) |})
      (combine anims frames).

End Chart.

(* ================================================================== *)
(** ** js/events.js — the unit selector *)
(* ================================================================== *)

Section Events.
Local Open Scope js_scope.


End Events.

(* ================================================================== *)
(** ** Sums and bounds used in the statements *)
(* ================================================================== *)

(** The sum of the values of a stack. *)
Definition Rsum (l : list seg) : R :=
  fold_right (fun x s => value x + s) 0 l.

(** The heights of a column of targets add up from the baseline: each
    target's lower edge is the upper edge of the one before. *)
Fixpoint stacked_from (y : R) (ts : list target) : Prop :=
  match ts with
  | [] => True
  | t :: rest =>
      exists h : R,
        th t = Num h /\ 10 <= h /\ ty t = Num (y - h)
        /\ stacked_from (y - h) rest
  end.

(** A label at [y] keeps clear of the box [b]. *)
Definition clear_of (half : R) (y : R) (b : box) : Prop :=
  half + val (box_h b) / 2 + 2 <= Rabs (y - val (box_y b)).

(** The reference patient with the measured bicarbonate entered and the
    "use BMP HCO3" box checked. *)
Definition measured_form (hco3 : R) : Dom :=
  {| field := fun id =>
       if String.eqb id "hco3" then Num hco3 else reference_fields id;
     unit_select := fun _ => "si"%string;
     use_bmp_hco3 := true;
     has_hco3 := true |}.

(** An entry of [anim] whose start and target are the finite numbers
    [sy], [sh] (start) and [y], [h] (target). *)
Definition anim_reals (a : anim) (sy sh y h : R) : Prop :=
  sY a = Num sy /\ sH a = Num sh /\ anim_ty a = Num y /\ anim_th a = Num h.

(** The frame of a bar that has reached its target. *)
Definition landed (a : anim) : frame :=
  {| frame_y := anim_ty a;
     frame_height := anim_th a;
     frame_text_y := add (anim_ty a) (div (anim_th a) (Num 2)) |}.

(** A frame between the start and the target of its bar: position and
    height interpolated without overshoot, the height drawn as it is (at
    least 4, never raised to the floor of 1) and the label on the middle of
    the bar. *)
Definition frame_within (a : anim) (f : frame) : Prop :=
  exists sy sh y h cy ch : R,
    anim_reals a sy sh y h
    /\ f = {| frame_y := Num cy; frame_height := Num ch;
              frame_text_y := Num (cy + ch / 2) |}
    /\ Rmin sy y <= cy <= Rmax sy y
    /\ Rmin sh h <= ch <= Rmax sh h
    /\ 4 <= ch.

(** Previous rects that hold finite numbers only. *)
Definition finite_prev (p : prev_rects) : Prop :=
  forall (key : string) (y h : number),
    p key = Some (y, h) -> isFinite y = true /\ isFinite h = true.

(** The rect of a bar that stands at its target. *)
Definition rect_of (t : target) : rect :=
  {| rect_key := k (item t); rect_y := ty t; rect_height := th t |}.

(** A label box at [fst p] of height [snd p]. *)
Definition box_at (p : R * R) : box :=
  {| box_y := Num (fst p); box_h := Num (snd p) |}.

(** The residues of a list of groups. *)
Definition residue_count (l : list Spec.group) : R :=
  Spec.total (fun g => IZR (Spec.count g)) l.

(* ================================================================== *)
(** ** Bounding [Math.pow(10, x)] at a rational exponent *)
(* ================================================================== *)

Lemma pow10_pos (x : R) : 0 < pow10 x.
Proof. unfold pow10, Rpower. apply exp_pos. Qed.

Lemma pow10_plus (x y : R) : pow10 (x + y) = pow10 x * pow10 y.
Proof. unfold pow10. apply Rpower_plus. Qed.

Lemma pow10_opp (x : R) : pow10 (- x) = / pow10 x.
Proof. unfold pow10. apply Rpower_Ropp. Qed.

Lemma pow10_le (x y : R) : x <= y -> pow10 x <= pow10 y.
Proof.
  intros [Hlt | ->]; [| apply Rle_refl].
  left. unfold pow10. apply Rpower_lt; lra.
Qed.

Lemma pow10_nat (n : nat) : pow10 (INR n) = 10 ^ n.
Proof. unfold pow10. apply Rpower_pow. lra. Qed.

(** [a ^ q = 10 ^ (x * q)] decides how [a] compares with [10 ^ x]. *)
Lemma root_of_pow (a : R) (q : nat) :
  0 < a -> (0 < q)%nat -> Rpower (a ^ q) (/ INR q) = a.
Proof.
  intros Ha Hq.
  rewrite <- (Rpower_pow q a Ha), Rpower_mult.
  rewrite Rinv_r; [apply Rpower_1; exact Ha |].
  apply not_0_INR. lia.
Qed.

Lemma pow10_root (x : R) (q : nat) :
  (0 < q)%nat -> Rpower (pow10 (x * INR q)) (/ INR q) = pow10 x.
Proof.
  intros Hq. unfold pow10. rewrite Rpower_mult. f_equal.
  field. apply not_0_INR. lia.
Qed.

Lemma pow10_diff (pp pn : nat) : pow10 (INR pp - INR pn) = 10 ^ pp / 10 ^ pn.
Proof.
  unfold Rminus. rewrite pow10_plus, pow10_opp, !pow10_nat. reflexivity.
Qed.

Lemma pow10_lower_nat (x a : R) (q pp pn : nat) :
  (0 < q)%nat -> 0 < a ->
  x * INR q = INR pp - INR pn ->
  a ^ q * 10 ^ pn <= 10 ^ pp ->
  a <= pow10 x.
Proof.
  intros Hq Ha Hx Hle.
  rewrite <- (root_of_pow a q Ha Hq), <- (pow10_root x q Hq), Hx, pow10_diff.
  assert (H10 : 0 < 10 ^ pn) by (apply pow_lt; lra).
  apply Rle_Rpower_l.
  - left. apply Rinv_0_lt_compat, lt_0_INR. exact Hq.
  - split; [apply pow_lt; exact Ha |].
    apply (Rmult_le_reg_r (10 ^ pn)); [exact H10 |].
    unfold Rdiv. rewrite Rmult_assoc, Rinv_l; lra.
Qed.

Lemma pow10_upper_nat (x a : R) (q pp pn : nat) :
  (0 < q)%nat -> 0 < a ->
  x * INR q = INR pp - INR pn ->
  10 ^ pp <= a ^ q * 10 ^ pn ->
  pow10 x <= a.
Proof.
  intros Hq Ha Hx Hle.
  rewrite <- (root_of_pow a q Ha Hq), <- (pow10_root x q Hq), Hx, pow10_diff.
  assert (H10 : 0 < 10 ^ pn) by (apply pow_lt; lra).
  assert (Hpp : 0 < 10 ^ pp) by (apply pow_lt; lra).
  apply Rle_Rpower_l.
  - left. apply Rinv_0_lt_compat, lt_0_INR. exact Hq.
  - split.
    + unfold Rdiv. apply Rmult_lt_0_compat; [exact Hpp |].
      apply Rinv_0_lt_compat. exact H10.
    + apply (Rmult_le_reg_r (10 ^ pn)); [exact H10 |].
      unfold Rdiv. rewrite Rmult_assoc, Rinv_l; lra.
Qed.

(** The same tests on integers, where they are decided by computation:
    [n / d] against [10 ^ x] for [x = (pp - pn) / q]. *)
Lemma IZR_to_nat (z : Z) : (0 <= z)%Z -> INR (Z.to_nat z) = IZR z.
Proof. intros Hz. rewrite INR_IZR_INZ, Z2Nat.id; auto. Qed.

Lemma pow_IZR_to_nat (b z : Z) :
  (0 <= z)%Z -> IZR b ^ Z.to_nat z = IZR (b ^ z).
Proof. intros Hz. rewrite pow_IZR, Z2Nat.id; auto. Qed.

Lemma pow_frac (n d : R) (q : nat) : d <> 0 -> (n / d) ^ q = n ^ q / d ^ q.
Proof.
  intros Hd. unfold Rdiv. rewrite Rpow_mult_distr, pow_inv. reflexivity.
Qed.

Lemma pow10_lower (x : R) (n d q pp pn : Z) :
  (0 < n)%Z -> (0 < d)%Z -> (0 < q)%Z -> (0 <= pp)%Z -> (0 <= pn)%Z ->
  x * IZR q = IZR pp - IZR pn ->
  (n ^ q * 10 ^ pn <=? 10 ^ pp * d ^ q)%Z = true ->
  IZR n / IZR d <= pow10 x.
Proof.
  intros Hn Hd Hq Hpp Hpn Hx Hle.
  assert (Hd' : 0 < IZR d) by (apply IZR_lt; exact Hd).
  assert (Hn' : 0 < IZR n) by (apply IZR_lt; exact Hn).
  apply (pow10_lower_nat x _ (Z.to_nat q) (Z.to_nat pp) (Z.to_nat pn)).
  - lia.
  - apply Rdiv_lt_0_compat; assumption.
  - rewrite !IZR_to_nat; [exact Hx | lia ..].
  - rewrite pow_frac by lra.
    change 10 with (IZR 10).
    rewrite !pow_IZR_to_nat by lia.
    assert (Hdq : 0 < IZR (d ^ q)) by (apply IZR_lt, Z.pow_pos_nonneg; lia).
    apply (Rmult_le_reg_r (IZR (d ^ q))); [exact Hdq |].
    replace (IZR (n ^ q) / IZR (d ^ q) * IZR (10 ^ pn) * IZR (d ^ q))
      with (IZR (n ^ q) * IZR (10 ^ pn)) by (field; lra).
    rewrite <- !mult_IZR. apply IZR_le. apply Z.leb_le. exact Hle.
Qed.

Lemma pow10_upper (x : R) (n d q pp pn : Z) :
  (0 < n)%Z -> (0 < d)%Z -> (0 < q)%Z -> (0 <= pp)%Z -> (0 <= pn)%Z ->
  x * IZR q = IZR pp - IZR pn ->
  (10 ^ pp * d ^ q <=? n ^ q * 10 ^ pn)%Z = true ->
  pow10 x <= IZR n / IZR d.
Proof.
  intros Hn Hd Hq Hpp Hpn Hx Hle.
  assert (Hd' : 0 < IZR d) by (apply IZR_lt; exact Hd).
  assert (Hn' : 0 < IZR n) by (apply IZR_lt; exact Hn).
  apply (pow10_upper_nat x _ (Z.to_nat q) (Z.to_nat pp) (Z.to_nat pn)).
  - lia.
  - apply Rdiv_lt_0_compat; assumption.
  - rewrite !IZR_to_nat; [exact Hx | lia ..].
  - rewrite pow_frac by lra.
    change 10 with (IZR 10).
    rewrite !pow_IZR_to_nat by lia.
    assert (Hdq : 0 < IZR (d ^ q)) by (apply IZR_lt, Z.pow_pos_nonneg; lia).
    apply (Rmult_le_reg_r (IZR (d ^ q))); [exact Hdq |].
    replace (IZR (n ^ q) / IZR (d ^ q) * IZR (10 ^ pn) * IZR (d ^ q))
      with (IZR (n ^ q) * IZR (10 ^ pn)) by (field; lra).
    rewrite <- !mult_IZR. apply IZR_le. apply Z.leb_le. exact Hle.
Qed.

(** [pow10_between n m d q pp pn] proves [n / d <= pow10 x <= m / d]. *)
Ltac pow10_side :=
  [> lia | lia | lia | lia | lia | lra | vm_compute; reflexivity ].

Ltac pow10_between n m d q pp pn :=
  split;
  [ apply (pow10_lower _ n d q pp pn); pow10_side
  | apply (pow10_upper _ m d q pp pn); pow10_side ].

(* ================================================================== *)
(** ** Arithmetic on numbers *)
(* ================================================================== *)

Lemma div_Num (a b : R) : b <> 0 -> div (Num a) (Num b) = Num (a / b).
Proof.
  intros Hb. unfold div. destruct (Req_dec_T b 0) as [E | _]; [| reflexivity].
  contradiction.
Qed.

Lemma or0_val (x : number) : or0 x = Num (val x).
Proof.
  destruct x as [r |]; unfold or0, truthy; simpl; [| reflexivity].
  destruct (Req_dec_T r 0) as [-> | _]; reflexivity.
Qed.

Lemma isFinite_Num (x : number) : isFinite x = true -> x = Num (val x).
Proof. destruct x; simpl; [reflexivity | discriminate]. Qed.

Lemma one_plus_pow10_neq (x : R) : 1 + pow10 x <> 0.
Proof. pose proof (pow10_pos x). lra. Qed.

(** Evaluate lifted arithmetic on finite operands. *)
Ltac js_arith :=
  repeat first
    [ progress cbn [add sub mul neg lift1 lift2 Math_pow10 Math_round Math_abs
                    Math_max toFixed2 isFinite val]
    | rewrite div_Num by (try apply one_plus_pow10_neq; lra)
    | rewrite or0_val ].

(* ================================================================== *)
(** ** The formula library computes the document's formulas *)
(* ================================================================== *)

Lemma hco3FromPHandPco2_Num (pH pCO2 : R) :
  hco3FromPHandPco2 (Num pH) (Num pCO2) = Num (Spec.bicarbonate pH pCO2).
Proof. reflexivity. Qed.

Lemma albuminCharge_Num (a pH : R) :
  albuminCharge (Num a) (Num pH) = Num (Spec.albumin a pH).
Proof.
  unfold albuminCharge, accumulate, HIS_NB, HIS_STD.
  cbn [fold_left]. js_arith.
  f_equal.
  unfold Spec.albumin, Spec.net_charge, Spec.total, Spec.basic_groups,
    Spec.acidic_groups, Spec.basic_charge, Spec.acidic_charge.
  cbn [fold_right Spec.count Spec.pKa Spec.shifted]. unfold Spec.NB.
  unfold Rdiv. ring.
Qed.

Lemma phosphate_den_pos (H K1 K2 K3 : R) :
  0 < H -> 0 < K1 -> 0 < K2 -> 0 < K3 ->
  0 < H * H * H + K1 * H * H + K1 * K2 * H + K1 * K2 * K3.
Proof.
  intros HH H1 H2 H3.
  assert (0 < H * H) by (apply Rmult_lt_0_compat; assumption).
  assert (0 < K1 * K2) by (apply Rmult_lt_0_compat; assumption).
  assert (0 < H * H * H) by (apply Rmult_lt_0_compat; assumption).
  assert (0 < K1 * H * H)
    by (rewrite Rmult_assoc; apply Rmult_lt_0_compat; assumption).
  assert (0 < K1 * K2 * H) by (apply Rmult_lt_0_compat; assumption).
  assert (0 < K1 * K2 * K3) by (apply Rmult_lt_0_compat; assumption).
  lra.
Qed.

Lemma phosphateCharge_Num (p pH : R) :
  phosphateCharge (Num p) (Num pH) = Num (Spec.phosphate p pH).
Proof.
  unfold phosphateCharge.
  cbn [add sub mul neg lift1 lift2 Math_pow10].
  pose proof (phosphate_den_pos _ _ _ _ (pow10_pos (- pH))
    (pow10_pos (-1.915)) (pow10_pos (-6.66)) (pow10_pos (-11.78))) as Hd.
  rewrite div_Num by lra.
  f_equal. unfold Spec.phosphate, Spec.z. cbv zeta.
  f_equal. f_equal; [ring | f_equal; ring].
Qed.

(* ================================================================== *)
(** ** Numeric bounds at pH 7.40 *)
(* ================================================================== *)

Lemma frac_between (c x lo hi : R) :
  lo <= x <= hi -> 0 < 1 + lo -> 0 <= c ->
  c / (1 + hi) <= c / (1 + x) <= c / (1 + lo).
Proof.
  intros [Hlo Hhi] Hpos Hc. unfold Rdiv. split.
  - apply Rmult_le_compat_l; [exact Hc |].
    apply Rinv_le_contravar; lra.
  - apply Rmult_le_compat_l; [exact Hc |].
    apply Rinv_le_contravar; lra.
Qed.

Lemma pow10_nb :
  316227 / 100000 <= pow10 (7.4 - 6.9) <= 316228 / 100000.
Proof. pow10_between 316227%Z 316228%Z 100000%Z 2%Z 1%Z 0%Z. Qed.

Lemma NB_at_7_4 : 0.30 <= Spec.NB 7.4 <= 0.31.
Proof.
  unfold Spec.NB.
  pose proof (frac_between 1 _ _ _ pow10_nb ltac:(lra) ltac:(lra)).
  lra.
Qed.

Lemma shifted_between (pKa lo hi : R) :
  lo <= pow10 (7.4 - pKa + 0.30) ->
  pow10 (7.4 - pKa + 0.31) <= hi ->
  lo <= pow10 (7.4 - (pKa - Spec.NB 7.4)) <= hi.
Proof.
  intros Hlo Hhi. pose proof NB_at_7_4 as [Hn1 Hn2]. split.
  - eapply Rle_trans; [exact Hlo |]. apply pow10_le. lra.
  - eapply Rle_trans; [| exact Hhi]. apply pow10_le. lra.
Qed.
Lemma pow10_his_7_12 :
  380189 / 100000 <= pow10 (7.4 - (7.12 - Spec.NB 7.4)) <= 389046 / 100000.
Proof.
  apply shifted_between.
  - apply (pow10_lower _ 380189%Z 100000%Z 50%Z 29%Z 0%Z); pow10_side.
  - apply (pow10_upper _ 389046%Z 100000%Z 100%Z 59%Z 0%Z); pow10_side.
Qed.

Lemma pow10_his_7_22 :
  301995 / 100000 <= pow10 (7.4 - (7.22 - Spec.NB 7.4)) <= 309030 / 100000.
Proof.
  apply shifted_between.
  - apply (pow10_lower _ 301995%Z 100000%Z 25%Z 12%Z 0%Z); pow10_side.
  - apply (pow10_upper _ 309030%Z 100000%Z 100%Z 49%Z 0%Z); pow10_side.
Qed.

Lemma pow10_his_7_10 :
  398107 / 100000 <= pow10 (7.4 - (7.10 - Spec.NB 7.4)) <= 407381 / 100000.
Proof.
  apply shifted_between.
  - apply (pow10_lower _ 398107%Z 100000%Z 5%Z 3%Z 0%Z); pow10_side.
  - apply (pow10_upper _ 407381%Z 100000%Z 100%Z 61%Z 0%Z); pow10_side.
Qed.

Lemma pow10_his_7_49 :
  162181 / 100000 <= pow10 (7.4 - (7.49 - Spec.NB 7.4)) <= 165959 / 100000.
Proof.
  apply shifted_between.
  - apply (pow10_lower _ 162181%Z 100000%Z 100%Z 21%Z 0%Z); pow10_side.
  - apply (pow10_upper _ 165959%Z 100000%Z 50%Z 11%Z 0%Z); pow10_side.
Qed.

Lemma pow10_his_7_01 :
  489778 / 100000 <= pow10 (7.4 - (7.01 - Spec.NB 7.4)) <= 501188 / 100000.
Proof.
  apply shifted_between.
  - apply (pow10_lower _ 489778%Z 100000%Z 100%Z 69%Z 0%Z); pow10_side.
  - apply (pow10_upper _ 501188%Z 100000%Z 10%Z 7%Z 0%Z); pow10_side.
Qed.

Lemma pow10_basic_7_31 :
  123026 / 100000 <= pow10 (7.4 - 7.31) <= 123027 / 100000.
Proof. pow10_between 123026%Z 123027%Z 100000%Z 100%Z 9%Z 0%Z. Qed.

Lemma pow10_basic_6_75 :
  446683 / 100000 <= pow10 (7.4 - 6.75) <= 446684 / 100000.
Proof. pow10_between 446683%Z 446684%Z 100000%Z 20%Z 13%Z 0%Z. Qed.

Lemma pow10_basic_6_36 :
  109647 / 10000 <= pow10 (7.4 - 6.36) <= 109648 / 10000.
Proof. pow10_between 109647%Z 109648%Z 10000%Z 25%Z 26%Z 0%Z. Qed.

Lemma pow10_basic_4_85 :
  354813 / 1000 <= pow10 (7.4 - 4.85) <= 354814 / 1000.
Proof. pow10_between 354813%Z 354814%Z 1000%Z 20%Z 51%Z 0%Z. Qed.

Lemma pow10_basic_5_76 :
  436515 / 10000 <= pow10 (7.4 - 5.76) <= 436516 / 10000.
Proof. pow10_between 436515%Z 436516%Z 10000%Z 25%Z 41%Z 0%Z. Qed.

Lemma pow10_basic_6_17 :
  169824 / 10000 <= pow10 (7.4 - 6.17) <= 169825 / 10000.
Proof. pow10_between 169824%Z 169825%Z 10000%Z 100%Z 123%Z 0%Z. Qed.

Lemma pow10_basic_6_73 :
  467735 / 100000 <= pow10 (7.4 - 6.73) <= 467736 / 100000.
Proof. pow10_between 467735%Z 467736%Z 100000%Z 100%Z 67%Z 0%Z. Qed.

Lemma pow10_basic_5_82 :
  380189 / 10000 <= pow10 (7.4 - 5.82) <= 380190 / 10000.
Proof. pow10_between 380189%Z 380190%Z 10000%Z 50%Z 79%Z 0%Z. Qed.

Lemma pow10_basic_5_10 :
  199526 / 1000 <= pow10 (7.4 - 5.10) <= 199527 / 1000.
Proof. pow10_between 199526%Z 199527%Z 1000%Z 10%Z 23%Z 0%Z. Qed.

Lemma pow10_basic_6_70 :
  501187 / 100000 <= pow10 (7.4 - 6.70) <= 501188 / 100000.
Proof. pow10_between 501187%Z 501188%Z 100000%Z 10%Z 7%Z 0%Z. Qed.

Lemma pow10_basic_6_20 :
  158489 / 10000 <= pow10 (7.4 - 6.20) <= 158490 / 10000.
Proof. pow10_between 158489%Z 158490%Z 10000%Z 5%Z 6%Z 0%Z. Qed.

Lemma pow10_basic_5_800 :
  398107 / 10000 <= pow10 (7.4 - 5.800) <= 398108 / 10000.
Proof. pow10_between 398107%Z 398108%Z 10000%Z 5%Z 8%Z 0%Z. Qed.

Lemma pow10_basic_6_150 :
  177827 / 10000 <= pow10 (7.4 - 6.150) <= 177828 / 10000.
Proof. pow10_between 177827%Z 177828%Z 10000%Z 4%Z 5%Z 0%Z. Qed.

Lemma pow10_basic_7_510 :
  776247 / 1000000 <= pow10 (7.4 - 7.510) <= 776248 / 1000000.
Proof. pow10_between 776247%Z 776248%Z 1000000%Z 100%Z 0%Z 11%Z. Qed.

Lemma pow10_basic_7_685 :
  518800 / 1000000 <= pow10 (7.4 - 7.685) <= 518801 / 1000000.
Proof. pow10_between 518800%Z 518801%Z 1000000%Z 200%Z 0%Z 57%Z. Qed.

Lemma pow10_basic_7_860 :
  346736 / 1000000 <= pow10 (7.4 - 7.860) <= 346737 / 1000000.
Proof. pow10_between 346736%Z 346737%Z 1000000%Z 50%Z 0%Z 23%Z. Qed.

Lemma pow10_basic_10_30 :
  125892 / 100000000 <= pow10 (7.4 - 10.30) <= 125893 / 100000000.
Proof. pow10_between 125892%Z 125893%Z 100000000%Z 10%Z 0%Z 29%Z. Qed.

Lemma pow10_basic_12_5 :
  794328 / 100000000000 <= pow10 (7.4 - 12.5) <= 794329 / 100000000000.
Proof. pow10_between 794328%Z 794329%Z 100000000000%Z 10%Z 0%Z 51%Z. Qed.

Lemma pow10_basic_8_0 :
  251188 / 1000000 <= pow10 (7.4 - 8.0) <= 251189 / 1000000.
Proof. pow10_between 251188%Z 251189%Z 1000000%Z 5%Z 0%Z 3%Z. Qed.

Lemma pow10_acidic_3_1 :
  501187 / 10000000000 <= pow10 (3.1 - 7.4) <= 501188 / 10000000000.
Proof. pow10_between 501187%Z 501188%Z 10000000000%Z 10%Z 0%Z 43%Z. Qed.

Lemma pow10_acidic_3_9 :
  316227 / 1000000000 <= pow10 (3.9 - 7.4) <= 316228 / 1000000000.
Proof. pow10_between 316227%Z 316228%Z 1000000000%Z 2%Z 0%Z 7%Z. Qed.

Lemma pow10_acidic_8_5 :
  125892 / 10000 <= pow10 (8.5 - 7.4) <= 125893 / 10000.
Proof. pow10_between 125892%Z 125893%Z 10000%Z 10%Z 11%Z 0%Z. Qed.

Lemma pow10_acidic_11_7 :
  199526 / 10 <= pow10 (11.7 - 7.4) <= 199527 / 10.
Proof. pow10_between 199526%Z 199527%Z 10%Z 10%Z 43%Z 0%Z. Qed.


Lemma net_charge_at_7_4 : -18.56 <= Spec.net_charge 7.4 <= -18.52.
Proof.
  unfold Spec.net_charge, Spec.total, Spec.basic_groups, Spec.acidic_groups,
    Spec.basic_charge, Spec.acidic_charge.
  cbn [fold_right Spec.count Spec.pKa Spec.shifted].
  pose proof (frac_between 1 _ _ _ pow10_his_7_12 ltac:(lra) ltac:(lra)).
  pose proof (frac_between 1 _ _ _ pow10_his_7_22 ltac:(lra) ltac:(lra)).
  pose proof (frac_between 1 _ _ _ pow10_his_7_10 ltac:(lra) ltac:(lra)).
  pose proof (frac_between 1 _ _ _ pow10_his_7_49 ltac:(lra) ltac:(lra)).
  pose proof (frac_between 1 _ _ _ pow10_his_7_01 ltac:(lra) ltac:(lra)).
  pose proof (frac_between 1 _ _ _ pow10_basic_7_31 ltac:(lra) ltac:(lra)).
  pose proof (frac_between 1 _ _ _ pow10_basic_6_75 ltac:(lra) ltac:(lra)).
  pose proof (frac_between 1 _ _ _ pow10_basic_6_36 ltac:(lra) ltac:(lra)).
  pose proof (frac_between 1 _ _ _ pow10_basic_4_85 ltac:(lra) ltac:(lra)).
  pose proof (frac_between 1 _ _ _ pow10_basic_5_76 ltac:(lra) ltac:(lra)).
  pose proof (frac_between 1 _ _ _ pow10_basic_6_17 ltac:(lra) ltac:(lra)).
  pose proof (frac_between 1 _ _ _ pow10_basic_6_73 ltac:(lra) ltac:(lra)).
  pose proof (frac_between 1 _ _ _ pow10_basic_5_82 ltac:(lra) ltac:(lra)).
  pose proof (frac_between 1 _ _ _ pow10_basic_5_10 ltac:(lra) ltac:(lra)).
  pose proof (frac_between 1 _ _ _ pow10_basic_6_70 ltac:(lra) ltac:(lra)).
  pose proof (frac_between 1 _ _ _ pow10_basic_6_20 ltac:(lra) ltac:(lra)).
  pose proof (frac_between 2 _ _ _ pow10_basic_5_800 ltac:(lra) ltac:(lra)).
  pose proof (frac_between 2 _ _ _ pow10_basic_6_150 ltac:(lra) ltac:(lra)).
  pose proof (frac_between 2 _ _ _ pow10_basic_7_510 ltac:(lra) ltac:(lra)).
  pose proof (frac_between 2 _ _ _ pow10_basic_7_685 ltac:(lra) ltac:(lra)).
  pose proof (frac_between 1 _ _ _ pow10_basic_7_860 ltac:(lra) ltac:(lra)).
  pose proof (frac_between 50 _ _ _ pow10_basic_10_30 ltac:(lra) ltac:(lra)).
  pose proof (frac_between 24 _ _ _ pow10_basic_12_5 ltac:(lra) ltac:(lra)).
  pose proof (frac_between 1 _ _ _ pow10_basic_8_0 ltac:(lra) ltac:(lra)).
  pose proof (frac_between 1 _ _ _ pow10_acidic_3_1 ltac:(lra) ltac:(lra)).
  pose proof (frac_between 98 _ _ _ pow10_acidic_3_9 ltac:(lra) ltac:(lra)).
  pose proof (frac_between 1 _ _ _ pow10_acidic_8_5 ltac:(lra) ltac:(lra)).
  pose proof (frac_between 18 _ _ _ pow10_acidic_11_7 ltac:(lra) ltac:(lra)).
  lra.
Qed.

Lemma pow10_split (x y s : R) : s = x + y -> pow10 s = pow10 x * pow10 y.
Proof. intros ->. apply pow10_plus. Qed.

Lemma div_between (n d lo hi : R) :
  0 < d -> lo * d <= n <= hi * d -> lo <= n / d <= hi.
Proof.
  intros Hd [Hlo Hhi]. split.
  - apply (Rmult_le_reg_r d); [exact Hd |].
    unfold Rdiv. rewrite Rmult_assoc, Rinv_l, Rmult_1_r; lra.
  - apply (Rmult_le_reg_r d); [exact Hd |].
    unfold Rdiv. rewrite Rmult_assoc, Rinv_l, Rmult_1_r; lra.
Qed.

Lemma pow10_0_74 : 549 / 100 <= pow10 0.74 <= 550 / 100.
Proof. pow10_between 549%Z 550%Z 100%Z 50%Z 37%Z 0%Z. Qed.

Lemma pow10_m4_38 : pow10 (- 4.38) <= 1 / 10000.
Proof. apply (pow10_upper _ 1%Z 10000%Z 50%Z 0%Z 219%Z); pow10_side. Qed.

Lemma pow10_m5_485 : pow10 (- 5.485) <= 1 / 100000.
Proof. apply (pow10_upper _ 1%Z 100000%Z 200%Z 0%Z 1097%Z); pow10_side. Qed.

(** At pH 7.4 the charge fraction is a function of the three ratios
    [H / K1], [K2 / H] and [K3 / H]. *)
Lemma z_at_7_4 : 1.82 <= Spec.z 7.4 <= 1.88.
Proof.
  unfold Spec.z. cbv zeta.
  set (K1 := pow10 (- 1.915)).
  set (u := pow10 (- 5.485)). set (r2 := pow10 0.74). set (r3 := pow10 (- 4.38)).
  assert (EH : pow10 (- (7.4)) = u * K1) by (apply pow10_split; lra).
  assert (E2 : pow10 (- 6.66) = r2 * pow10 (- (7.4))) by (apply pow10_split; lra).
  assert (E3 : pow10 (- 11.78) = r3 * pow10 (- (7.4))) by (apply pow10_split; lra).
  rewrite E2, E3, EH.
  assert (HK1 : 0 < K1) by apply pow10_pos.
  assert (Hu : 0 < u) by apply pow10_pos.
  assert (Hr3 : 0 < r3) by apply pow10_pos.
  pose proof pow10_0_74 as [Hr2 Hr2']. fold r2 in Hr2, Hr2'.
  pose proof pow10_m4_38 as Hr3'. fold r3 in Hr3'.
  pose proof pow10_m5_485 as Hu'. fold u in Hu'.
  assert (Hw : 0 <= r2 * r3 <= 550 / 100 * (1 / 10000)).
  { split; [apply Rmult_le_pos; lra |].
    apply Rmult_le_compat; lra. }
  set (w := r2 * r3) in Hw. destruct Hw as [Hw Hw'].
  replace ((K1 * (u * K1) ^ 2 + 2 * K1 * (r2 * (u * K1)) * (u * K1) +
            3 * K1 * (r2 * (u * K1)) * (r3 * (u * K1))) /
           ((u * K1) ^ 3 + K1 * (u * K1) ^ 2 + K1 * (r2 * (u * K1)) * (u * K1) +
            K1 * (r2 * (u * K1)) * (r3 * (u * K1))))
    with ((1 + 2 * r2 + 3 * w) / (u + 1 + r2 + w)).
  - apply div_between; [lra | split; lra].
  - unfold w. assert (0 < r2 * r3) by (apply Rmult_lt_0_compat; lra).
    field. repeat split; try lra.
    match goal with
    | |- ?e <> 0 =>
        replace e with (K1 * K1 * K1 * (u * u) * (u + 1 + r2 + r2 * r3)) by ring
    end.
    apply Rgt_not_eq, Rlt_gt.
    repeat apply Rmult_lt_0_compat; lra.
Qed.

(* ================================================================== *)
(** ** Formula library: the stated properties *)
(* ================================================================== *)

Lemma pow10_at_1_3 :
  199526 / 10000 <= pow10 (7.4 - 6.1) <= 199527 / 10000.
Proof. pow10_between 199526%Z 199527%Z 10000%Z 10%Z 13%Z 0%Z. Qed.

Lemma bicarbonate_at_reference :
  23.943 <= Spec.bicarbonate 7.4 40 <= 23.944.
Proof.
  unfold Spec.bicarbonate, Spec.alpha, Spec.pKa_CO2.
  pose proof pow10_at_1_3 as [Hlo Hhi]. split; lra.
Qed.

(** C3, as stated, fails at its own reference point: [hco3FromPHandPco2]
    at pH 7.40 and pCO2 40 is 0.03 * 40 * 10^1.30, which is below 23.95 and
    so not within 0.01 of 23.97. *)
Lemma C3_reference_value_not_23_97 :
  ~ within 0.01 (hco3FromPHandPco2 (Num 7.4) (Num 40)) (Num 23.97).
Proof.
  rewrite hco3FromPHandPco2_Num. unfold within.
  pose proof bicarbonate_at_reference as [Hlo Hhi].
  unfold Rabs. destruct (Rcase_abs _); lra.
Qed.

(** C3 (amended): [hco3FromPHandPco2] computes alpha * pCO2 * 10^(pH - pKa)
    with alpha = 0.03 and pKa = 6.1; at pH 7.40 and pCO2 40 it returns
    0.03 * 40 * 10^1.30, a value within 0.01 of 23.94. *)
Theorem C3_bicarbonate_from_blood_gas :
  (forall pH pCO2 : R,
     hco3FromPHandPco2 (Num pH) (Num pCO2)
     = Num (0.03 * pCO2 * pow10 (pH - 6.1)))
  /\ hco3FromPHandPco2 (Num 7.4) (Num 40) = Num (0.03 * 40 * pow10 1.3)
  /\ within 0.01 (hco3FromPHandPco2 (Num 7.4) (Num 40)) (Num 23.94).
Proof.
  split; [| split].
  - intros pH pCO2. reflexivity.
  - rewrite hco3FromPHandPco2_Num. unfold Spec.bicarbonate, Spec.alpha,
      Spec.pKa_CO2. replace (7.4 - 6.1) with 1.3 by lra. reflexivity.
  - rewrite hco3FromPHandPco2_Num. unfold within.
    pose proof bicarbonate_at_reference as [Hlo Hhi].
    apply Rabs_le. lra.
Qed.

(** C4: [albuminCharge] is the residue-inventory model — 16 histidines of
    which 5 are NB-shifted, 59 lysines in 6 groups, 24 arginines, one
    N-terminal amino group, one C-terminal carboxyl, 98 Asp+Glu, one
    cysteine, 18 tyrosines, scaled by -(albumin / 66.5) — and at albumin
    40 g/L and pH 7.40 it is within 0.05 of 11.15 mEq/L. *)
Theorem C4_albumin_charge :
  (forall a pH : R, albuminCharge (Num a) (Num pH) = Num (Spec.albumin a pH))
  /\ (Spec.residues Spec.His = 16%Z
      /\ List.length (filter Spec.shifted (Spec.groups_of Spec.His)) = 5%nat
      /\ Spec.residues Spec.Lys = 59%Z
      /\ List.length (Spec.groups_of Spec.Lys) = 6%nat
      /\ Spec.residues Spec.Arg = 24%Z
      /\ Spec.residues Spec.NTerm = 1%Z
      /\ Spec.residues Spec.CTerm = 1%Z
      /\ Spec.residues Spec.AspGlu = 98%Z
      /\ Spec.residues Spec.Cys = 1%Z
      /\ Spec.residues Spec.Tyr = 18%Z)
  /\ within 0.05 (albuminCharge (Num 40) (Num 7.4)) (Num 11.15).
Proof.
  split; [exact albuminCharge_Num | split].
  - repeat split; reflexivity.
  - rewrite albuminCharge_Num. unfold within, Spec.albumin.
    pose proof net_charge_at_7_4 as [Hlo Hhi].
    apply Rabs_le. lra.
Qed.

(** C5: [phosphateCharge] is the phosphate concentration times the mean
    charge fraction z of the triprotic equilibrium (pKa 1.915, 6.66, 11.78,
    H = 10^-pH), and at phosphate 1.0 mmol/L and pH 7.40 it is within 0.03
    of 1.85 mEq/L. *)
Theorem C5_phosphate_charge :
  (forall p pH : R, phosphateCharge (Num p) (Num pH) = Num (p * Spec.z pH))
  /\ within 0.03 (phosphateCharge (Num 1) (Num 7.4)) (Num 1.85).
Proof.
  split; [exact phosphateCharge_Num |].
  rewrite phosphateCharge_Num. unfold within, Spec.phosphate.
  pose proof z_at_7_4 as [Hlo Hhi].
  apply Rabs_le. lra.
Qed.

Lemma albuminCharge_NaN_l (pH : number) : albuminCharge NaN pH = NaN.
Proof. reflexivity. Qed.

Lemma albuminCharge_NaN_r (a : number) : albuminCharge a NaN = NaN.
Proof.
  destruct a as [a |]; [| reflexivity].
  unfold albuminCharge. rewrite div_Num by lra. reflexivity.
Qed.

(** C10: [albuminCharge] is linear in the albumin concentration, for every
    pH (blank readings included): scaling the concentration by [c] scales
    the charge by [c], and the charge is [albumin / 66.5] times a function
    of pH alone. *)
Theorem C10_albumin_charge_linear :
  (forall c a pH : number,
     albuminCharge (c * a)%js pH = (c * albuminCharge a pH)%js)
  /\ (exists f : number -> number,
        forall a pH : number, albuminCharge a pH = (a / 66.5 * f pH)%js).
Proof.
  split.
  - intros [c |] [a |] [pH |]; cbn [mul lift2];
      rewrite ?albuminCharge_NaN_l, ?albuminCharge_NaN_r,
        ?albuminCharge_Num; try reflexivity.
    cbn [mul lift2]. f_equal. unfold Spec.albumin, Rdiv. ring.
  - exists (fun pH => albuminCharge (Num 66.5) pH).
    intros [a |] [pH |];
      rewrite ?albuminCharge_NaN_l, ?albuminCharge_NaN_r,
        ?albuminCharge_Num; try reflexivity.
    + rewrite div_Num by lra. cbn [mul lift2]. f_equal.
      unfold Spec.albumin. field. lra.
    + rewrite div_Num by lra. reflexivity.
Qed.

(* ================================================================== *)
(** ** Unit conversion *)
(* ================================================================== *)

Lemma MG_FACTOR_val : MG_FACTOR = Num (10 / 24.305).
Proof. unfold MG_FACTOR. apply div_Num. lra. Qed.

Lemma CA_FACTOR_val : CA_FACTOR = Num (10 / 40.08).
Proof. unfold CA_FACTOR. apply div_Num. lra. Qed.

Lemma LAC_FACTOR_val : LAC_FACTOR = Num (10 / 89.07).
Proof. unfold LAC_FACTOR. apply div_Num. lra. Qed.

Lemma PO4_FACTOR_val : PO4_FACTOR = Num (10 / 30.97).
Proof. unfold PO4_FACTOR. apply div_Num. lra. Qed.

Lemma scale_back (x mw : R) :
  0 < mw -> div (mul (Num x) (Num (10 / mw))) (Num (10 / mw)) = Num x.
Proof.
  intros Hmw. cbn [mul lift2].
  assert (H : 10 / mw <> 0).
  { apply Rgt_not_eq, Rlt_gt, Rdiv_lt_0_compat; lra. }
  rewrite div_Num by exact H. f_equal. field. lra.
Qed.



(* ================================================================== *)
(** ** The stack builder *)
(* ================================================================== *)

Section SortFacts.
Context {A : Type} (cmp : A -> A -> number).

Lemma sort_insert_In (x z : A) (l : list A) :
  In z (sort_insert cmp x l) <-> z = x \/ In z l.
Proof.
  induction l as [| y l IH]; simpl.
  - intuition.
  - destruct (gt (cmp x y) (Num 0)); simpl; [rewrite IH |]; intuition.
Qed.

Lemma sort_In (z : A) (l : list A) : In z (sort cmp l) <-> In z l.
Proof.
  induction l as [| x l IH]; simpl; [reflexivity |].
  rewrite sort_insert_In, IH. intuition.
Qed.

Lemma sort_Forall (P : A -> Prop) (l : list A) :
  Forall P l -> Forall P (sort cmp l).
Proof.
  rewrite !Forall_forall. intros H z Hz. apply H, sort_In, Hz.
Qed.

End SortFacts.

Lemma by_value_desc_gt (x y : seg) :
  gt (by_value_desc x y) (Num 0) = true <-> value x < value y.
Proof.
  unfold by_value_desc, value. rewrite !or0_val. cbn [sub lift2 gt].
  destruct (Rlt_dec 0 (val (v y) - val (v x))); split; intros H;
    try reflexivity; try discriminate; lra.
Qed.

Lemma sort_insert_sorted (x : seg) (l : list seg) :
  Sorted (fun a b => value b <= value a) l ->
  Sorted (fun a b => value b <= value a) (sort_insert by_value_desc x l).
Proof.
  induction 1 as [| y l Hs IH Hhd]; simpl.
  - repeat constructor.
  - destruct (gt (by_value_desc x y) (Num 0)) eqn:E.
    + apply by_value_desc_gt in E.
      constructor; [exact IH |].
      destruct l as [| y' l']; simpl.
      * constructor. lra.
      * inversion Hhd; subst.
        destruct (gt (by_value_desc x y') (Num 0)); constructor; lra.
    + assert (Hxy : value y <= value x).
      { destruct (Rle_dec (value y) (value x)) as [Hle | Hn]; [exact Hle |].
        assert (Hlt : value x < value y) by lra.
        apply by_value_desc_gt in Hlt. congruence. }
      constructor; [constructor; assumption | constructor; exact Hxy].
Qed.

Lemma sort_sorted (l : list seg) :
  Sorted (fun a b => value b <= value a) (sort by_value_desc l).
Proof.
  induction l as [| x l IH]; simpl; [constructor |].
  apply sort_insert_sorted, IH.
Qed.

Lemma filter_all {A : Type} (f : A -> bool) (l : list A) :
  Forall (fun x => f x = true) l -> filter f l = l.
Proof.
  induction 1 as [| x l Hx _ IH]; simpl; [reflexivity |].
  rewrite Hx, IH. reflexivity.
Qed.

Lemma filter_none {A : Type} (f : A -> bool) (l : list A) :
  Forall (fun x => f x = false) l -> filter f l = [].
Proof.
  induction 1 as [| x l Hx _ IH]; simpl; [reflexivity |].
  rewrite Hx, IH. reflexivity.
Qed.

(** [lift] on the measured segments followed by the Unknown ones. *)
Lemma lift_known_unknown (l u : list seg) :
  Forall (fun x => is_unknown x = false) l ->
  Forall (fun x => is_unknown x = true) u ->
  lift (l ++ u) = sort by_value_desc l ++ u.
Proof.
  intros Hl Hu. unfold lift. rewrite !filter_app.
  rewrite (filter_none is_unknown l Hl), (filter_all is_unknown u Hu).
  rewrite (filter_all (fun x => negb (is_unknown x)) l),
    (filter_none (fun x => negb (is_unknown x)) u).
  - rewrite app_nil_r. reflexivity.
  - eapply Forall_impl; [| exact Hu]. intros x Hx. cbv beta. rewrite Hx. reflexivity.
  - eapply Forall_impl; [| exact Hl]. intros x Hx. cbv beta. rewrite Hx. reflexivity.
Qed.

Lemma known_cations_known (vals : Vals.t) :
  Forall (fun x => is_unknown x = false) (known_cations vals).
Proof. repeat constructor. Qed.

Lemma known_anions_known (vals : Vals.t) :
  Forall (fun x => is_unknown x = false) (known_anions vals).
Proof. repeat constructor. Qed.

(** The two stacks [renderGamblegram] builds. *)
Lemma cations_render (vals : Vals.t) :
  cations (renderGamblegram vals)
  = sort by_value_desc (known_cations vals)
    ++ (if lt (or0 (Vals.sig vals)) (Num (-0.0001))
        then [unknown_seg (Math_abs (or0 (Vals.sig vals)))] else []).
Proof.
  unfold renderGamblegram. cbv zeta. cbn [cations].
  fold (known_cations vals).
  destruct (lt (or0 (Vals.sig vals)) (Num (-0.0001))).
  - apply lift_known_unknown; [apply known_cations_known |].
    repeat constructor.
  - rewrite <- (app_nil_r (known_cations vals)) at 1.
    apply lift_known_unknown; [apply known_cations_known | constructor].
Qed.

Lemma anions_render (vals : Vals.t) :
  anions (renderGamblegram vals)
  = sort by_value_desc (known_anions vals)
    ++ (if gt (or0 (Vals.sig vals)) (Num 0.0001)
        then [unknown_seg (or0 (Vals.sig vals))] else []).
Proof.
  unfold renderGamblegram. cbv zeta. cbn [anions].
  fold (known_anions vals).
  destruct (gt (or0 (Vals.sig vals)) (Num 0.0001)).
  - apply lift_known_unknown; [apply known_anions_known |].
    repeat constructor.
  - rewrite <- (app_nil_r (known_anions vals)) at 1.
    apply lift_known_unknown; [apply known_anions_known | constructor].
Qed.

Lemma gt_Num (a b : R) :
  gt (Num a) (Num b) = if Rlt_dec b a then true else false.
Proof. reflexivity. Qed.

Lemma or0_finite (x : number) : isFinite (or0 x) = true.
Proof. rewrite or0_val. reflexivity. Qed.

Lemma val_or0 (x : number) : val (or0 x) = val x.
Proof. rewrite or0_val. reflexivity. Qed.

Lemma known_cations_finite (vals : Vals.t) :
  Forall (fun x => isFinite (v x) = true) (known_cations vals).
Proof. repeat constructor; apply or0_finite. Qed.

Lemma known_anions_finite (vals : Vals.t) :
  Forall (fun x => isFinite (v x) = true) (known_anions vals).
Proof. repeat constructor; apply or0_finite. Qed.

Lemma stack_ordered_intro (l u : list seg) :
  Forall (fun x => is_unknown x = false) l ->
  Forall (fun x => isFinite (v x) = true) l ->
  (u = [] \/ exists x, u = [unknown_seg (Num x)]) ->
  stack_ordered (sort by_value_desc l ++ u).
Proof.
  intros Hk Hf Hu.
  exists (sort by_value_desc l), u. split; [reflexivity |].
  split; [apply sort_Forall; exact Hk |].
  split; [apply sort_sorted |].
  split.
  - destruct Hu as [-> | [x ->]]; [left; reflexivity |].
    right. eexists. split; reflexivity.
  - apply Forall_app. split; [apply sort_Forall; exact Hf |].
    destruct Hu as [-> | [x ->]]; repeat constructor.
Qed.

(** C7: in both stacks [renderGamblegram] builds, the known segments come
    in descending order of value and the Unknown segment, when there is
    one, is the last element, whatever its value: an Unknown of 5 stays
    behind five segments of value 0. *)
Theorem C7_stack_ordering :
  (forall vals : Vals.t,
     stack_ordered (cations (renderGamblegram vals))
     /\ stack_ordered (anions (renderGamblegram vals)))
  /\ (forall d : Dom,
        stack_ordered (cations (gram (computeAll d)))
        /\ stack_ordered (anions (gram (computeAll d))))
  /\ (exists known : list seg,
        anions (renderGamblegram (only_sig 5)) = known ++ [unknown_seg (Num 5)]
        /\ Forall (fun x => value x < 5) known).
Proof.
  assert (H : forall vals : Vals.t,
             stack_ordered (cations (renderGamblegram vals))
             /\ stack_ordered (anions (renderGamblegram vals))).
  { intros vals. rewrite cations_render, anions_render. split.
    - apply stack_ordered_intro;
        [apply known_cations_known | apply known_cations_finite |].
      destruct (lt _ _); [right | left; reflexivity].
      rewrite or0_val. eexists. reflexivity.
    - apply stack_ordered_intro;
        [apply known_anions_known | apply known_anions_finite |].
      destruct (gt _ _); [right | left; reflexivity].
      rewrite or0_val. eexists. reflexivity. }
  split; [exact H |].
  split; [intros d; apply (H (vals (computeAll d))) |].
  exists (sort by_value_desc (known_anions (only_sig 5))).
  split.
  - rewrite anions_render. f_equal.
    cbn [only_sig Vals.sig]. rewrite or0_val. cbn [val]. rewrite gt_Num.
    destruct (Rlt_dec 0.0001 5); [reflexivity | lra].
  - apply sort_Forall. repeat constructor; unfold value; cbn [v only_sig
      Vals.Cl Vals.Lac Vals.HCO3 Vals.albMinus Vals.piMinus];
      rewrite val_or0; cbn [val]; lra.
Qed.

(* ================================================================== *)
(** ** The aggregator *)
(* ================================================================== *)



Lemma sidA_val (d : Dom) :
  sidA (computeAll d)
  = Num (val (getIonSI d "na") + val (getIonSI d "k")
         + 2 * val (getIonSI d "ica") + 2 * val (getIonSI d "mg")
         - val (getIonSI d "cl") - val (getIonSI d "lac")).
Proof.
  unfold computeAll. cbv zeta. cbn [sidA].
  rewrite !or0_val. reflexivity.
Qed.

Lemma albMinus_finite (d : Dom) : isFinite (albMinus (computeAll d)) = true.
Proof.
  unfold computeAll. cbv zeta. cbn [albMinus].
  destruct (parse d "alb") as [a |], (parse d "ph") as [p |];
    cbn [isFinite andb mul lift2]; try reflexivity.
  rewrite albuminCharge_Num. reflexivity.
Qed.

Lemma piMinus_finite (d : Dom) : isFinite (piMinus (computeAll d)) = true.
Proof.
  unfold computeAll. cbv zeta. cbn [piMinus].
  destruct (getIonSI d "phos") as [a |], (parse d "ph") as [p |];
    cbn [isFinite andb]; try reflexivity.
  rewrite phosphateCharge_Num. reflexivity.
Qed.

Lemma sidE_eq (d : Dom) :
  sidE (computeAll d)
  = add (add (or0 (HCO3 (computeAll d))) (albMinus (computeAll d)))
        (piMinus (computeAll d)).
Proof. reflexivity. Qed.

Lemma sig_eq (d : Dom) :
  sig (computeAll d) = sub (sidA (computeAll d)) (sidE (computeAll d)).
Proof. reflexivity. Qed.

Lemma sidE_val (d : Dom) :
  sidE (computeAll d)
  = Num (val (HCO3 (computeAll d)) + val (albMinus (computeAll d))
         + val (piMinus (computeAll d))).
Proof.
  rewrite sidE_eq, or0_val.
  rewrite (isFinite_Num _ (albMinus_finite d)) at 1.
  rewrite (isFinite_Num _ (piMinus_finite d)) at 1.
  reflexivity.
Qed.

Lemma sig_val (d : Dom) :
  sig (computeAll d)
  = Num (val (sidA (computeAll d)) - val (sidE (computeAll d))).
Proof. rewrite sig_eq, sidA_val, sidE_val. reflexivity. Qed.

Lemma ag_val (d : Dom) :
  ag (computeAll d)
  = Num (val (getIonSI d "na") + val (getIonSI d "k")
         - (val (getIonSI d "cl") + val (HCO3 (computeAll d)))).
Proof.
  unfold computeAll at 1. cbv zeta. cbn [ag].
  rewrite !or0_val. reflexivity.
Qed.

(** One-decimal rounding, [Math.round(x * 10) / 10]. *)
Lemma round1_Num (x : R) :
  div (Math_round (mul (Num x) (Num 10))) (Num 10)
  = Num (IZR (Zfloor (x * 10 + 1 / 2)) / 10).
Proof. cbn [mul lift2 Math_round lift1]. apply div_Num. lra. Qed.

Lemma sigR_val (d : Dom) :
  sigR (computeAll d)
  = Num (IZR (Zfloor (val (sig (computeAll d)) * 10 + 1 / 2)) / 10).
Proof.
  change (sigR (computeAll d))
    with (div (Math_round (mul (sig (computeAll d)) (Num 10))) (Num 10)).
  rewrite sig_val. cbn [val]. apply round1_Num.
Qed.

Lemma vals_sig (d : Dom) : Vals.sig (vals (computeAll d)) = sigR (computeAll d).
Proof. reflexivity. Qed.

Lemma vals_iCa (d : Dom) :
  or0 (Vals.iCa (vals (computeAll d))) = Num (2 * val (getIonSI d "ica")).
Proof.
  unfold computeAll. cbv zeta. cbn [vals Vals.iCa].
  rewrite (or0_val (getIonSI d "ica")). cbn [mul lift2].
  rewrite or0_val. reflexivity.
Qed.

Lemma vals_Mg_mmol (d : Dom) :
  or0 (Vals.Mg_mmol (vals (computeAll d))) = Num (2 * val (getIonSI d "mg")).
Proof.
  unfold computeAll. cbv zeta. cbn [vals Vals.Mg_mmol].
  destruct (getIonSI d "mg") as [m |]; cbn [isFinite mul lift2];
    rewrite or0_val; reflexivity.
Qed.

Lemma known_cation_In (vals : Vals.t) (x : seg) :
  In x (known_cations vals) -> In x (cations (renderGamblegram vals)).
Proof.
  intros Hx. rewrite cations_render. apply in_or_app. left.
  apply sort_In. exact Hx.
Qed.

(** C1: [computeAll] computes SIDa as Na + K + 2*iCa + 2*Mg - Cl - Lactate
    (a blank reading counting for 0).  The factor 2 is applied by
    [computeAll] alone: the iCa and Mg segments it hands to the chart carry
    2*iCa and 2*Mg, [renderGamblegram] stacks the values it is given
    unchanged, and the formula library's outputs do not depend on iCa or
    Mg at all. *)
Theorem C1_sidA_doubles_divalent_cations_once :
  (forall d : Dom,
     sidA (computeAll d)
     = Num (val (getIonSI d "na") + val (getIonSI d "k")
            + 2 * val (getIonSI d "ica") + 2 * val (getIonSI d "mg")
            - val (getIonSI d "cl") - val (getIonSI d "lac")))
  /\ (forall d : Dom,
        In {| k := "iCa"; v := Num (2 * val (getIonSI d "ica")) |}
           (cations (gram (computeAll d)))
        /\ In {| k := "Mg"; v := Num (2 * val (getIonSI d "mg")) |}
              (cations (gram (computeAll d))))
  /\ (forall vals : Vals.t,
        In {| k := "iCa"; v := or0 (Vals.iCa vals) |}
           (cations (renderGamblegram vals))
        /\ In {| k := "Mg"; v := or0 (Vals.Mg_mmol vals) |}
              (cations (renderGamblegram vals)))
  /\ (forall (d : Dom) (x y : number),
        let d' := set_field (set_field d "ica" x) "mg" y in
        hco3FromGas (computeAll d') = hco3FromGas (computeAll d)
        /\ albMinus (computeAll d') = albMinus (computeAll d)
        /\ piMinus (computeAll d') = piMinus (computeAll d)).
Proof.
  assert (Hpass : forall vals : Vals.t,
            In {| k := "iCa"; v := or0 (Vals.iCa vals) |}
               (cations (renderGamblegram vals))
            /\ In {| k := "Mg"; v := or0 (Vals.Mg_mmol vals) |}
                  (cations (renderGamblegram vals))).
  { intros vals. split; apply known_cation_In; simpl; auto. }
  split; [exact sidA_val |].
  split; [| split; [exact Hpass |]].
  - intros d. rewrite <- vals_iCa, <- vals_Mg_mmol.
    apply (Hpass (vals (computeAll d))).
  - intros d x y d'. repeat split; reflexivity.
Qed.

(** C2: SIG is SIDa minus SIDe, computed from them and from nothing else,
    and SIDe is the effective bicarbonate plus the albumin and phosphate
    charges; all three are finite numbers, so the identity is one of real
    numbers. *)
Theorem C2_sig_is_sidA_minus_sidE :
  forall d : Dom,
    let r := computeAll d in
    sig r = sub (sidA r) (sidE r)
    /\ sidE r = add (add (or0 (HCO3 r)) (albMinus r)) (piMinus r)
    /\ exists a e : R,
         sidA r = Num a /\ sidE r = Num e /\ sig r = Num (a - e)
         /\ e = val (HCO3 r) + val (albMinus r) + val (piMinus r).
Proof.
  intros d r. split; [reflexivity | split; [reflexivity |]].
  exists (val (sidA r)), (val (sidE r)). subst r.
  split; [rewrite sidA_val; reflexivity |].
  split; [rewrite sidE_val; reflexivity |].
  split; [apply sig_val |].
  rewrite sidE_val. reflexivity.
Qed.

Lemma known_sorted_no_unknown (l : list seg) :
  Forall (fun x => is_unknown x = false) l ->
  filter is_unknown (sort by_value_desc l) = [].
Proof. intros Hl. apply filter_none, sort_Forall, Hl. Qed.

(** The Unknown segments of the two stacks, from the value [renderGamblegram]
    receives as [sig]. *)
Lemma unknown_of_anions (vals : Vals.t) (s : R) :
  Vals.sig vals = Num s ->
  filter is_unknown (anions (renderGamblegram vals))
  = if Rlt_dec 0.0001 s then [unknown_seg (Num s)] else [].
Proof.
  intros Hs. rewrite anions_render, filter_app, Hs.
  rewrite (known_sorted_no_unknown _ (known_anions_known vals)).
  rewrite or0_val. cbn [val]. rewrite gt_Num.
  destruct (Rlt_dec 0.0001 s); reflexivity.
Qed.

Lemma unknown_of_cations (vals : Vals.t) (s : R) :
  Vals.sig vals = Num s ->
  filter is_unknown (cations (renderGamblegram vals))
  = if Rlt_dec s (-0.0001) then [unknown_seg (Num (Rabs s))] else [].
Proof.
  intros Hs. rewrite cations_render, filter_app, Hs.
  rewrite (known_sorted_no_unknown _ (known_cations_known vals)).
  rewrite or0_val. cbn [val]. unfold lt. rewrite gt_Num.
  destruct (Rlt_dec s (-0.0001)); reflexivity.
Qed.

(** On a form with sodium alone, SIG is the sodium entered. *)
Lemma sodium_only_sig (na : R) :
  sig (computeAll (sodium_only_form na)) = Num na.
Proof.
  rewrite sig_val, sidA_val, sidE_val.
  unfold computeAll, sodium_only_form, form, getIonSI, parse, set_field.
  cbv zeta.
  cbn [HCO3 albMinus piMinus field unit_select use_bmp_hco3 has_hco3
       String.eqb Ascii.eqb Bool.eqb isFinite negb andb val].
  f_equal. lra.
Qed.

(** C6: the chart receives the one-decimal rounding of SIG, and the
    Unknown segment is made from that rounded value: appended to the anion
    stack, with the rounded SIG as value, exactly when it exceeds 0.0001;
    appended to the cation stack, with its absolute value, exactly when it
    is below -0.0001; on neither stack otherwise.  A raw SIG of 0.04
    exceeds 0.0001 and yet yields no Unknown segment, its rounding being
    0. *)
Theorem C6_unknown_segment_from_rounded_sig :
  (forall d : Dom,
     let r := computeAll d in
     let s := IZR (Zfloor (val (sig r) * 10 + 1 / 2)) / 10 in
     let unknown_anion :=
       if Rlt_dec 0.0001 s then [unknown_seg (Num s)] else [] in
     let unknown_cation :=
       if Rlt_dec s (-0.0001) then [unknown_seg (Num (Rabs s))] else [] in
     Vals.sig (vals r) = Num s
     /\ anions (gram r)
        = sort by_value_desc (known_anions (vals r)) ++ unknown_anion
     /\ cations (gram r)
        = sort by_value_desc (known_cations (vals r)) ++ unknown_cation
     /\ filter is_unknown (anions (gram r)) = unknown_anion
     /\ filter is_unknown (cations (gram r)) = unknown_cation)
  /\ (let r := computeAll (sodium_only_form 0.04) in
      sig r = Num 0.04
      /\ filter is_unknown (anions (gram r)) = []
      /\ filter is_unknown (cations (gram r)) = []).
Proof.
  assert (H : forall d : Dom,
     let r := computeAll d in
     let s := IZR (Zfloor (val (sig r) * 10 + 1 / 2)) / 10 in
     Vals.sig (vals r) = Num s
     /\ filter is_unknown (anions (gram r))
        = (if Rlt_dec 0.0001 s then [unknown_seg (Num s)] else [])
     /\ filter is_unknown (cations (gram r))
        = (if Rlt_dec s (-0.0001) then [unknown_seg (Num (Rabs s))] else [])).
  { intros d r s.
    assert (Hs : Vals.sig (vals r) = Num s)
      by (subst r s; rewrite vals_sig; apply sigR_val).
    split; [exact Hs |]. split.
    - apply (unknown_of_anions (vals r) s Hs).
    - apply (unknown_of_cations (vals r) s Hs). }
  split.
  - intros d r s ua uc. destruct (H d) as (Hs & Ha & Hc). fold r s in Hs, Ha, Hc.
    split; [exact Hs |].
    split; [| split; [| split; [exact Ha | exact Hc]]].
    + change (gram r) with (renderGamblegram (vals r)).
      rewrite anions_render, Hs, or0_val. cbn [val]. rewrite gt_Num.
      subst ua. destruct (Rlt_dec 0.0001 s); reflexivity.
    + change (gram r) with (renderGamblegram (vals r)).
      rewrite cations_render, Hs, or0_val. cbn [val]. unfold lt.
      rewrite gt_Num.
      subst uc. destruct (Rlt_dec s (-0.0001)); reflexivity.
  - intros r. destruct (H (sodium_only_form 0.04)) as (_ & Ha & Hc).
    fold r in Ha, Hc.
    assert (Hsig : sig r = Num 0.04) by apply sodium_only_sig.
    rewrite Hsig in Ha, Hc. cbn [val] in Ha, Hc.
    assert (Hz : Zfloor (0.04 * 10 + 1 / 2) = 0%Z) by (apply Zfloor_eq; lra).
    rewrite Hz in Ha, Hc.
    split; [exact Hsig |]. split.
    + rewrite Ha. destruct (Rlt_dec 0.0001 (0 / 10)); [lra | reflexivity].
    + rewrite Hc. destruct (Rlt_dec (0 / 10) (-0.0001)); [lra | reflexivity].
Qed.


Lemma segments_finite (vals : Vals.t) :
  Forall (fun x => isFinite (v x) = true)
         (cations (renderGamblegram vals) ++ anions (renderGamblegram vals)).
Proof.
  rewrite cations_render, anions_render, !Forall_app. repeat split.
  - apply sort_Forall, known_cations_finite.
  - destruct (lt _ _); repeat constructor. rewrite or0_val. reflexivity.
  - apply sort_Forall, known_anions_finite.
  - destruct (gt _ _); repeat constructor. apply or0_finite.
Qed.




(* ================================================================== *)
(** ** The earlier version *)
(* ================================================================== *)

(** On the reference patient [computeAll] finds SIDa = 42.4; the sum of the
    earlier version, which leaves out the factor 2, is 40.7. *)
Lemma reference_sidA :
  sidA (computeAll reference_form) = Num 42.4
  /\ sidA_prior reference_form = Num 40.7.
Proof.
  split.
  - rewrite sidA_val.
    unfold reference_form, form, reference_fields, getIonSI, parse.
    cbn [field unit_select String.eqb Ascii.eqb Bool.eqb isFinite negb val].
    f_equal. lra.
  - unfold sidA_prior. rewrite !or0_val.
    unfold reference_form, form, reference_fields, getIonSI, parse.
    cbn [field unit_select String.eqb Ascii.eqb Bool.eqb isFinite negb val
         add sub lift2].
    f_equal. lra.
Qed.

(* ================================================================== *)
(** ** More on the stacks: contents, totals, balance *)
(* ================================================================== *)

Section SortPermutation.
Context {A : Type} (cmp : A -> A -> number).

Lemma sort_insert_Permutation (x : A) (l : list A) :
  Permutation (sort_insert cmp x l) (x :: l).
Proof.
  induction l as [| y l IH]; simpl; [reflexivity |].
  destruct (gt (cmp x y) (Num 0)); [| reflexivity].
  rewrite IH. apply perm_swap.
Qed.

Lemma sort_Permutation (l : list A) : Permutation (sort cmp l) l.
Proof.
  induction l as [| x l IH]; simpl; [reflexivity |].
  rewrite sort_insert_Permutation, IH. reflexivity.
Qed.

End SortPermutation.

Lemma filter_split_Permutation {A : Type} (f : A -> bool) (l : list A) :
  Permutation (filter (fun x => negb (f x)) l ++ filter f l) l.
Proof.
  induction l as [| x l IH]; simpl; [reflexivity |].
  destruct (f x); simpl.
  - rewrite <- Permutation_middle. constructor. exact IH.
  - constructor. exact IH.
Qed.

(** X1: [lift] only reorders: the stack it returns holds exactly the
    segments it was given, none lost and none repeated. *)
Theorem X1_lift_is_a_permutation (arr : list seg) :
  Permutation (lift arr) arr
  /\ List.length (lift arr) = List.length arr.
Proof.
  assert (H : Permutation (lift arr) arr).
  { unfold lift. rewrite sort_Permutation. apply filter_split_Permutation. }
  split; [exact H | apply Permutation_length, H].
Qed.

Lemma sort_of_sorted (l : list seg) :
  Sorted (fun a b => value b <= value a) l -> sort by_value_desc l = l.
Proof.
  induction 1 as [| x l Hs IH Hhd]; simpl; [reflexivity |].
  rewrite IH. destruct Hhd as [| y l' Hyx]; simpl; [reflexivity |].
  destruct (gt (by_value_desc x y) (Num 0)) eqn:E; [| reflexivity].
  apply by_value_desc_gt in E. lra.
Qed.

Lemma filter_known_known (arr : list seg) :
  Forall (fun x => is_unknown x = false)
         (filter (fun x => negb (is_unknown x)) arr).
Proof.
  apply Forall_forall. intros x Hx. apply filter_In in Hx.
  destruct Hx as [_ Hx]. destruct (is_unknown x); [discriminate | reflexivity].
Qed.

Lemma filter_unknown_unknown (arr : list seg) :
  Forall (fun x => is_unknown x = true) (filter is_unknown arr).
Proof.
  apply Forall_forall. intros x Hx. apply filter_In in Hx. apply Hx.
Qed.

(** X2: [lift] is idempotent — a stack that went through [lift] comes out
    of a second pass unchanged, segments of equal value keeping their
    order. *)
Theorem X2_lift_idempotent (arr : list seg) : lift (lift arr) = lift arr.
Proof.
  unfold lift at 2.
  rewrite lift_known_unknown.
  - rewrite sort_of_sorted; [reflexivity | apply sort_sorted].
  - apply sort_Forall, filter_known_known.
  - apply filter_unknown_unknown.
Qed.

Lemma sum_from (l : list seg) (s : R) :
  fold_left (fun s x => add s (or0 (v x))) l (Num s) = Num (s + Rsum l).
Proof.
  revert s. induction l as [| x l IH]; intros s; simpl.
  - f_equal. lra.
  - rewrite or0_val. cbn [add lift2]. rewrite IH. f_equal.
    unfold value. lra.
Qed.

Lemma sum_Rsum (l : list seg) : sum l = Num (Rsum l).
Proof. unfold sum. rewrite sum_from. f_equal. lra. Qed.

Lemma Rsum_app (l1 l2 : list seg) : Rsum (l1 ++ l2) = Rsum l1 + Rsum l2.
Proof. induction l1 as [| x l IH]; simpl; [lra | rewrite IH; lra]. Qed.

Lemma Rsum_Permutation (l1 l2 : list seg) :
  Permutation l1 l2 -> Rsum l1 = Rsum l2.
Proof. induction 1; simpl; lra. Qed.

Lemma Rsum_sort (l : list seg) : Rsum (sort by_value_desc l) = Rsum l.
Proof. apply Rsum_Permutation, sort_Permutation. Qed.

(** The Unknown share of each column. *)
Lemma totalC_val (vals : Vals.t) :
  totalC (renderGamblegram vals)
  = Num (val (Vals.Na vals) + val (Vals.K vals) + val (Vals.iCa vals)
         + val (Vals.Mg_mmol vals)
         + (if Rlt_dec (val (Vals.sig vals)) (-0.0001)
            then Rabs (val (Vals.sig vals)) else 0)).
Proof.
  change (totalC (renderGamblegram vals))
    with (sum (cations (renderGamblegram vals))).
  rewrite sum_Rsum, cations_render, Rsum_app, Rsum_sort. f_equal.
  rewrite (or0_val (Vals.sig vals)). unfold lt. rewrite gt_Num.
  unfold known_cations, Rsum, value. cbn [fold_right v].
  rewrite !val_or0.
  destruct (Rlt_dec (val (Vals.sig vals)) (-0.0001));
    cbn [fold_right unknown_seg v Math_abs lift1 val]; lra.
Qed.

Lemma totalA_val (vals : Vals.t) :
  totalA (renderGamblegram vals)
  = Num (val (Vals.Cl vals) + val (Vals.Lac vals) + val (Vals.HCO3 vals)
         + val (Vals.albMinus vals) + val (Vals.piMinus vals)
         + (if Rlt_dec 0.0001 (val (Vals.sig vals))
            then val (Vals.sig vals) else 0)).
Proof.
  change (totalA (renderGamblegram vals))
    with (sum (anions (renderGamblegram vals))).
  rewrite sum_Rsum, anions_render, Rsum_app, Rsum_sort. f_equal.
  rewrite (or0_val (Vals.sig vals)). rewrite gt_Num.
  unfold known_anions, Rsum, value. cbn [fold_right v].
  rewrite !val_or0.
  destruct (Rlt_dec 0.0001 (val (Vals.sig vals)));
    cbn [fold_right unknown_seg v val]; lra.
Qed.

(** X3: the column totals are the plain sums of what the chart was given —
    a blank value counting for 0, the order of the stack playing no part —
    plus the Unknown share: |sig| on the cation side when sig < -0.0001,
    sig on the anion side when sig > 0.0001. *)
Theorem X3_column_totals (vals : Vals.t) :
  totalC (renderGamblegram vals)
  = Num (val (Vals.Na vals) + val (Vals.K vals) + val (Vals.iCa vals)
         + val (Vals.Mg_mmol vals)
         + (if Rlt_dec (val (Vals.sig vals)) (-0.0001)
            then Rabs (val (Vals.sig vals)) else 0))
  /\ totalA (renderGamblegram vals)
     = Num (val (Vals.Cl vals) + val (Vals.Lac vals) + val (Vals.HCO3 vals)
            + val (Vals.albMinus vals) + val (Vals.piMinus vals)
            + (if Rlt_dec 0.0001 (val (Vals.sig vals))
               then val (Vals.sig vals) else 0)).
Proof. split; [apply totalC_val | apply totalA_val]. Qed.

Lemma maxStack_val (vals : Vals.t) :
  maxStack (renderGamblegram vals)
  = Num (Rmax (Rmax (val (totalC (renderGamblegram vals)))
                    (val (totalA (renderGamblegram vals)))) 1).
Proof.
  change (maxStack (renderGamblegram vals))
    with (Math_max (Math_max (totalC (renderGamblegram vals))
                             (totalA (renderGamblegram vals))) (Num 1)).
  rewrite totalC_val, totalA_val. reflexivity.
Qed.

(** X4: [maxStack] is a finite number, at least 1 and at least each column
    total, so the division [item.v / maxStack] never divides by zero. *)
Theorem X4_maxStack_at_least_one (vals : Vals.t) :
  exists m : R,
    maxStack (renderGamblegram vals) = Num m
    /\ 1 <= m
    /\ val (totalC (renderGamblegram vals)) <= m
    /\ val (totalA (renderGamblegram vals)) <= m.
Proof.
  eexists. split; [apply maxStack_val |].
  set (c := val (totalC (renderGamblegram vals))).
  set (a := val (totalA (renderGamblegram vals))).
  pose proof (Rmax_r (Rmax c a) 1). pose proof (Rmax_l (Rmax c a) 1).
  pose proof (Rmax_l c a). pose proof (Rmax_r c a).
  repeat split; lra.
Qed.

Lemma HCO3_eq (d : Dom) :
  HCO3 (computeAll d)
  = let gas := hco3FromGas (computeAll d) in
    let d1 :=
      if has_hco3 d then
        if use_bmp_hco3 d then d
        else set_field d "hco3" (if isFinite gas then toFixed2 gas else NaN)
      else d in
    let h := parse d1 "hco3" in
    if negb (isFinite h) && isFinite gas then gas else h.
Proof. reflexivity. Qed.

Lemma ggHCO3_eq (d : Dom) :
  ggHCO3 (computeAll d)
  = let gas := hco3FromGas (computeAll d) in
    let d1 :=
      if has_hco3 d then
        if use_bmp_hco3 d then d
        else set_field d "hco3" (if isFinite gas then toFixed2 gas else NaN)
      else d in
    let bmpVal := parse d1 "hco3" in
    if use_bmp_hco3 d && isFinite bmpVal then bmpVal
    else if isFinite gas then gas
    else or0 (HCO3 (computeAll d)).
Proof. reflexivity. Qed.

Lemma parse_set_same (d : Dom) (id : string) (x : number) :
  parse (set_field d id x) id = x.
Proof. unfold parse, set_field. cbn [field]. rewrite String.eqb_refl. reflexivity. Qed.

(** X5: with the "use BMP HCO3" box checked and a finite bicarbonate in the
    field, SIDe, the anion gap and the chart all use the entered value,
    whatever the blood gas gives. *)
Theorem X5_measured_bicarbonate_is_used (d : Dom) (h : R) :
  use_bmp_hco3 d = true ->
  field d "hco3" = Num h ->
  HCO3 (computeAll d) = Num h
  /\ ggHCO3 (computeAll d) = Num h
  /\ Vals.HCO3 (vals (computeAll d)) = Num h.
Proof.
  intros Hb Hf.
  assert (Hp : parse (if has_hco3 d then d else d) "hco3" = Num h)
    by (destruct (has_hco3 d); exact Hf).
  assert (H1 : HCO3 (computeAll d) = Num h).
  { rewrite HCO3_eq. cbv zeta. rewrite Hb, Hp. reflexivity. }
  assert (H2 : ggHCO3 (computeAll d) = Num h).
  { rewrite ggHCO3_eq. cbv zeta. rewrite Hb, Hp. reflexivity. }
  repeat split; assumption.
Qed.

Lemma X5_measured_witness :
  use_bmp_hco3 (measured_form 24) = true
  /\ field (measured_form 24) "hco3" = Num 24
  /\ HCO3 (computeAll (measured_form 24)) = Num 24
  /\ ggHCO3 (computeAll (measured_form 24)) = Num 24
  /\ Vals.HCO3 (vals (computeAll (measured_form 24))) = Num 24.
Proof.
  split; [reflexivity | split; [reflexivity |]].
  apply (X5_measured_bicarbonate_is_used (measured_form 24) 24); reflexivity.
Defined.

Lemma HCO3_derived (d : Dom) :
  use_bmp_hco3 d = false -> has_hco3 d = true ->
  HCO3 (computeAll d) = toFixed2 (hco3FromGas (computeAll d)).
Proof.
  intros Hb Hh. rewrite HCO3_eq. cbv zeta. rewrite Hb, Hh, parse_set_same.
  destruct (hco3FromGas (computeAll d)); reflexivity.
Qed.

Lemma ggHCO3_derived (d : Dom) :
  use_bmp_hco3 d = false -> has_hco3 d = true ->
  ggHCO3 (computeAll d) = or0 (hco3FromGas (computeAll d)).
Proof.
  intros Hb Hh. rewrite ggHCO3_eq, (HCO3_derived d Hb Hh). cbv zeta.
  rewrite Hb.
  destruct (hco3FromGas (computeAll d)) as [g |]; cbn [andb isFinite].
  - rewrite or0_val. reflexivity.
  - reflexivity.
Qed.

(** X6: with the box unchecked on a page that has the bicarbonate field,
    whatever the user typed there is overwritten: SIDe and the anion gap
    use the blood-gas bicarbonate rounded to two decimals, the chart uses
    it unrounded, and both count 0 when pH or pCO2 is blank. *)
Theorem X6_derived_bicarbonate_overrides_field (d : Dom) :
  use_bmp_hco3 d = false ->
  has_hco3 d = true ->
  HCO3 (computeAll d) = toFixed2 (hco3FromGas (computeAll d))
  /\ ggHCO3 (computeAll d) = or0 (hco3FromGas (computeAll d))
  /\ (isFinite (parse d "ph") && isFinite (parse d "pco2") = false ->
      or0 (HCO3 (computeAll d)) = Num 0 /\ ggHCO3 (computeAll d) = Num 0).
Proof.
  intros Hb Hh.
  pose proof (HCO3_derived d Hb Hh) as H1.
  pose proof (ggHCO3_derived d Hb Hh) as H2.
  split; [exact H1 | split; [exact H2 |]].
  intros Hgas. rewrite H2, H1.
  assert (Hn : hco3FromGas (computeAll d) = NaN).
  { unfold computeAll. cbv zeta. cbn [hco3FromGas]. rewrite Hgas. reflexivity. }
  rewrite Hn. split; reflexivity.
Qed.

Lemma X6_derived_witness :
  use_bmp_hco3 (sodium_only_form 140) = false
  /\ has_hco3 (sodium_only_form 140) = true
  /\ or0 (HCO3 (computeAll (sodium_only_form 140))) = Num 0
  /\ ggHCO3 (computeAll (sodium_only_form 140)) = Num 0.
Proof.
  split; [reflexivity | split; [reflexivity |]].
  apply (X6_derived_bicarbonate_overrides_field (sodium_only_form 140));
    reflexivity.
Defined.

Lemma nearest_error (x : R) : Rabs (IZR (Zfloor (x + 1 / 2)) - x) <= 1 / 2.
Proof.
  pose proof (Zfloor_bound (x + 1 / 2)) as [Hlo Hhi].
  apply Rabs_le. lra.
Qed.

Lemma round1_error (x : R) :
  Rabs (IZR (Zfloor (x * 10 + 1 / 2)) / 10 - x) <= 0.05.
Proof.
  pose proof (Zfloor_bound (x * 10 + 1 / 2)) as [Hlo Hhi].
  apply Rabs_le. lra.
Qed.

Lemma Rabs_le_inv (a b : R) : Rabs a <= b -> - b <= a <= b.
Proof. unfold Rabs. destruct (Rcase_abs a); lra. Qed.

Lemma toFixed2_nonneg_error (x : R) : Rabs (toFixed2_nonneg x - x) <= 0.005.
Proof.
  unfold toFixed2_nonneg.
  pose proof (Zfloor_bound (x * 100 + 1 / 2)) as [Hlo Hhi].
  apply Rabs_le. lra.
Qed.

Lemma toFixed2_error (x : R) : Rabs (val (toFixed2 (Num x)) - x) <= 0.005.
Proof.
  cbn [toFixed2 lift1 val]. destruct (Rlt_dec x 0).
  - pose proof (toFixed2_nonneg_error (- x)) as H.
    apply Rabs_le_inv in H. apply Rabs_le. lra.
  - apply toFixed2_nonneg_error.
Qed.

Lemma tenth_near_zero (n : Z) :
  - 0.0001 <= IZR n / 10 <= 0.0001 -> IZR n / 10 = 0.
Proof.
  intros [Hlo Hhi].
  assert (Hn : (n = 0)%Z).
  { destruct (Z.eq_dec n 0) as [E | E]; [exact E | exfalso].
    assert (Hc : (n <= -1 \/ 1 <= n)%Z) by lia.
    destruct Hc as [Hc | Hc]; apply IZR_le in Hc; lra. }
  rewrite Hn. lra.
Qed.

Lemma hco3_gap (d : Dom) :
  has_hco3 d = true ->
  Rabs (val (HCO3 (computeAll d)) - val (ggHCO3 (computeAll d))) <= 0.005.
Proof.
  intros Hh. destruct (use_bmp_hco3 d) eqn:Hb.
  - rewrite ggHCO3_eq, HCO3_eq. cbv zeta. rewrite Hb, Hh.
    destruct (parse d "hco3") as [h |],
      (hco3FromGas (computeAll d)) as [g |];
      cbn [isFinite negb andb val or0 truthy];
      rewrite Rminus_diag, Rabs_R0; lra.
  - rewrite (ggHCO3_derived d Hb Hh), (HCO3_derived d Hb Hh).
    destruct (hco3FromGas (computeAll d)) as [g |].
    + rewrite val_or0. cbn [val]. apply toFixed2_error.
    + cbn [toFixed2 lift1 val or0 truthy]. rewrite Rminus_diag, Rabs_R0. lra.
Qed.

Lemma vals_components (d : Dom) :
  Vals.Na (vals (computeAll d)) = getIonSI d "na"
  /\ Vals.K (vals (computeAll d)) = getIonSI d "k"
  /\ Vals.Cl (vals (computeAll d)) = getIonSI d "cl"
  /\ Vals.Lac (vals (computeAll d)) = getIonSI d "lac"
  /\ Vals.HCO3 (vals (computeAll d)) = ggHCO3 (computeAll d)
  /\ Vals.albMinus (vals (computeAll d)) = albMinus (computeAll d)
  /\ Vals.piMinus (vals (computeAll d)) = piMinus (computeAll d).
Proof. repeat split; reflexivity. Qed.

(** The difference of the column totals: what rounding SIG leaves over,
    and the bicarbonate of SIDe against the bicarbonate drawn. *)
Lemma column_difference (d : Dom) :
  val (totalC (gram (computeAll d))) - val (totalA (gram (computeAll d)))
  = (val (sig (computeAll d)) - val (sigR (computeAll d)))
    + (val (HCO3 (computeAll d)) - val (ggHCO3 (computeAll d))).
Proof.
  change (gram (computeAll d)) with (renderGamblegram (vals (computeAll d))).
  rewrite totalC_val, totalA_val. cbn [val].
  destruct (vals_components d) as (-> & -> & -> & -> & -> & -> & ->).
  rewrite <- (val_or0 (Vals.iCa _)), <- (val_or0 (Vals.Mg_mmol _)).
  rewrite vals_iCa, vals_Mg_mmol, vals_sig. cbn [val].
  rewrite (sig_val d), (sidA_val d), (sidE_val d). cbn [val].
  rewrite (sigR_val d), (sig_val d), (sidA_val d), (sidE_val d). cbn [val].
  set (x := val (getIonSI d "na") + val (getIonSI d "k")
            + 2 * val (getIonSI d "ica") + 2 * val (getIonSI d "mg")
            - val (getIonSI d "cl") - val (getIonSI d "lac")
            - (val (HCO3 (computeAll d)) + val (albMinus (computeAll d))
               + val (piMinus (computeAll d)))).
  set (n := Zfloor (x * 10 + 1 / 2)).
  destruct (Rlt_dec (IZR n / 10) (-0.0001)) as [Hneg | Hneg];
    destruct (Rlt_dec 0.0001 (IZR n / 10)) as [Hpos | Hpos]; try lra.
  - rewrite Rabs_left by lra. unfold x. lra.
  - unfold x. lra.
  - assert (Hz : IZR n / 10 = 0) by (apply tenth_near_zero; lra).
    rewrite Hz. unfold x. lra.
Qed.

(** X7: on a page that has the bicarbonate field, the two columns of the
    chart have the same total up to 0.055 mEq/L: the Unknown segment makes
    up the strong ion gap to within its one-decimal rounding (0.05) and the
    two-decimal rounding of the derived bicarbonate (0.005). *)
Theorem X7_columns_balance (d : Dom) :
  has_hco3 d = true ->
  Rabs (val (totalC (gram (computeAll d)))
        - val (totalA (gram (computeAll d)))) <= 0.055.
Proof.
  intros Hh. rewrite column_difference.
  pose proof (hco3_gap d Hh) as Hg. apply Rabs_le_inv in Hg.
  pose proof (round1_error (val (sig (computeAll d)))) as Hr.
  apply Rabs_le_inv in Hr.
  assert (Es : val (sigR (computeAll d))
               = IZR (Zfloor (val (sig (computeAll d)) * 10 + 1 / 2)) / 10)
    by (rewrite sigR_val; reflexivity).
  rewrite Es. apply Rabs_le. lra.
Qed.

Lemma X7_columns_balance_witness :
  has_hco3 reference_form = true
  /\ Rabs (val (totalC (gram (computeAll reference_form)))
           - val (totalA (gram (computeAll reference_form)))) <= 0.055.
Proof.
  split; [reflexivity |].
  apply (X7_columns_balance reference_form). reflexivity.
Defined.

Lemma sidAR_val (d : Dom) :
  sidAR (computeAll d)
  = Num (IZR (Zfloor (val (sidA (computeAll d)) * 10 + 1 / 2)) / 10).
Proof.
  change (sidAR (computeAll d))
    with (div (Math_round (mul (sidA (computeAll d)) (Num 10))) (Num 10)).
  rewrite sidA_val. cbn [val]. apply round1_Num.
Qed.

Lemma sidER_val (d : Dom) :
  sidER (computeAll d)
  = Num (IZR (Zfloor (val (sidE (computeAll d)) * 10 + 1 / 2)) / 10).
Proof.
  change (sidER (computeAll d))
    with (div (Math_round (mul (sidE (computeAll d)) (Num 10))) (Num 10)).
  rewrite sidE_val. cbn [val]. apply round1_Num.
Qed.

(** X8: the values shown for SIDa, SIDe and SIG are whole tenths, each
    within 0.05 of the value computed; the rounded SIG shown (and drawn) is
    therefore within 0.15 of the difference of the rounded SIDa and
    SIDe. *)
Theorem X8_display_rounding (d : Dom) :
  let r := computeAll d in
  exists a e s : Z,
    sidAR r = Num (IZR a / 10) /\ sidER r = Num (IZR e / 10)
    /\ sigR r = Num (IZR s / 10)
    /\ Rabs (IZR a / 10 - val (sidA r)) <= 0.05
    /\ Rabs (IZR e / 10 - val (sidE r)) <= 0.05
    /\ Rabs (IZR s / 10 - val (sig r)) <= 0.05
    /\ Rabs (IZR s / 10 - (IZR a / 10 - IZR e / 10)) <= 0.15.
Proof.
  intros r. subst r.
  exists (Zfloor (val (sidA (computeAll d)) * 10 + 1 / 2)),
         (Zfloor (val (sidE (computeAll d)) * 10 + 1 / 2)),
         (Zfloor (val (sig (computeAll d)) * 10 + 1 / 2)).
  pose proof (round1_error (val (sidA (computeAll d)))) as Ha.
  pose proof (round1_error (val (sidE (computeAll d)))) as He.
  pose proof (round1_error (val (sig (computeAll d)))) as Hs.
  split; [apply sidAR_val |]. split; [apply sidER_val |].
  split; [apply sigR_val |].
  repeat (split; [assumption |]).
  apply Rabs_le_inv in Ha, He, Hs.
  assert (E : val (sig (computeAll d))
              = val (sidA (computeAll d)) - val (sidE (computeAll d)))
    by (rewrite sig_val; reflexivity).
  apply Rabs_le. lra.
Qed.

(** X9: SIG and the anion gap are computed from the same bicarbonate, so
    SIG = AG + 2*iCa + 2*Mg - Lactate - albumin charge - phosphate
    charge. *)
Theorem X9_sig_from_anion_gap (d : Dom) :
  let r := computeAll d in
  val (sig r)
  = val (ag r) + 2 * val (getIonSI d "ica") + 2 * val (getIonSI d "mg")
    - val (getIonSI d "lac") - val (albMinus r) - val (piMinus r).
Proof.
  intros r. subst r.
  rewrite sig_val, sidA_val, sidE_val, ag_val. cbn [val]. lra.
Qed.

(* ================================================================== *)
(** ** Geometry of the bars *)
(* ================================================================== *)

Lemma targets_stacked (m H y : R) (stack : list seg) :
  m <> 0 ->
  Forall (fun x => isFinite (v x) = true) stack ->
  stacked_from y (targets (Num m) (Num H) (Num y) stack)
  /\ map item (targets (Num m) (Num H) (Num y) stack) = stack
  /\ Forall (fun t => th t = Num (Rmax 10 (value (item t) / m * H)))
            (targets (Num m) (Num H) (Num y) stack).
Proof.
  intros Hm Hfin. revert y.
  induction Hfin as [| it rest Hit _ IH]; intros y.
  - simpl. repeat split. constructor.
  - cbn [targets stacked_from map item ty th].
    apply isFinite_Num in Hit.
    assert (Eh : Math_max (Num 10) (mul (div (v it) (Num m)) (Num H))
                 = Num (Rmax 10 (value it / m * H))).
    { rewrite Hit at 1. rewrite div_Num by exact Hm. reflexivity. }
    rewrite Eh. cbn [sub lift2 ty th item].
    destruct (IH (y - Rmax 10 (value it / m * H))) as (Hs & Hi & Hh).
    split; [| split].
    + exists (Rmax 10 (value it / m * H)).
      repeat split; [apply Rmax_l | exact Hs].
    + rewrite Hi. reflexivity.
    + constructor; [reflexivity | exact Hh].
Qed.

Lemma stack_finite (vals : Vals.t) :
  Forall (fun x => isFinite (v x) = true) (cations (renderGamblegram vals))
  /\ Forall (fun x => isFinite (v x) = true) (anions (renderGamblegram vals)).
Proof. apply Forall_app, segments_finite. Qed.

(** X10: the bars of a column are drawn in stack order, each
    [max(10, v / maxStack * H)] high and so at least 10, the first one
    standing on the baseline and every next one on top of the one before,
    without gap or overlap. *)
Theorem X10_bars_stack_from_baseline (vals : Vals.t) (H baseY : R) :
  let g := renderGamblegram vals in
  let cT := targets (maxStack g) (Num H) (Num baseY) (cations g) in
  let aT := targets (maxStack g) (Num H) (Num baseY) (anions g) in
  (stacked_from baseY cT /\ map item cT = cations g
   /\ Forall (fun t =>
                th t = Num (Rmax 10 (value (item t) / val (maxStack g) * H)))
             cT)
  /\ (stacked_from baseY aT /\ map item aT = anions g
      /\ Forall (fun t =>
                   th t = Num (Rmax 10 (value (item t) / val (maxStack g) * H)))
                aT).
Proof.
  intros g cT aT. subst cT aT g.
  destruct (stack_finite vals) as [Hc Ha].
  rewrite maxStack_val. cbn [val].
  set (m := Rmax (Rmax _ _) 1).
  assert (Hm : m <> 0) by (pose proof (Rmax_r (Rmax (val (totalC (renderGamblegram vals))) (val (totalA (renderGamblegram vals)))) 1); unfold m; lra).
  split; apply targets_stacked; assumption.
Qed.

(* ================================================================== *)
(** ** Animation *)
(* ================================================================== *)

Lemma ease_Num (t : R) : ease (Num t) = Num (1 - (1 - t) ^ 3).
Proof. reflexivity. Qed.

Lemma cube_le (x y : R) : 0 <= x <= y -> x ^ 3 <= y ^ 3.
Proof. intros H. apply pow_incr. exact H. Qed.

Lemma ease_range (t : R) : 0 <= t <= 1 -> 0 <= 1 - (1 - t) ^ 3 <= 1.
Proof.
  intros [H0 H1].
  pose proof (cube_le 0 (1 - t) ltac:(lra)) as Hlo.
  pose proof (cube_le (1 - t) 1 ltac:(lra)) as Hhi.
  replace (0 ^ 3) with 0 in Hlo by ring.
  replace (1 ^ 3) with 1 in Hhi by ring.
  lra.
Qed.

(** X11: [ease] starts at 0, ends at 1 and never goes back in between:
    on [0, 1] it is increasing and stays within [0, 1]. *)
Theorem X11_ease_is_monotone (s t : R) :
  0 <= s -> s <= t -> t <= 1 ->
  ease (Num 0) = Num 0 /\ ease (Num 1) = Num 1
  /\ exists a b : R,
       ease (Num s) = Num a /\ ease (Num t) = Num b
       /\ 0 <= a /\ a <= b /\ b <= 1.
Proof.
  intros Hs Hst Ht.
  split; [rewrite ease_Num; f_equal; ring |].
  split; [rewrite ease_Num; f_equal; ring |].
  exists (1 - (1 - s) ^ 3), (1 - (1 - t) ^ 3).
  split; [apply ease_Num | split; [apply ease_Num |]].
  pose proof (ease_range s ltac:(lra)) as [Ha _].
  pose proof (ease_range t ltac:(lra)) as [_ Hb].
  pose proof (cube_le (1 - t) (1 - s) ltac:(lra)) as Hm.
  repeat split; lra.
Qed.

Lemma X11_ease_witness :
  exists a b : R,
    ease (Num 0.25) = Num a /\ ease (Num 0.5) = Num b
    /\ 0 <= a /\ a <= b /\ b <= 1.
Proof.
  apply (X11_ease_is_monotone 0.25 0.5); lra.
Defined.

Lemma progress_Num (t0 now : R) :
  progress (Num t0) (Num now) = Num (Rmin 1 ((now - t0) / 360)).
Proof.
  unfold progress, DUR. cbn [sub lift2]. rewrite div_Num by lra. reflexivity.
Qed.

Lemma progress_range (t0 now : R) :
  t0 <= now -> 0 <= Rmin 1 ((now - t0) / 360) <= 1.
Proof.
  intros H. split; [| apply Rmin_l].
  apply Rmin_glb; [lra |]. apply Rmult_le_pos; lra.
Qed.

Lemma progress_done (t0 now : R) :
  360 <= now - t0 -> Rmin 1 ((now - t0) / 360) = 1.
Proof. intros H. apply Rmin_left. lra. Qed.

Lemma draw_reals (e : R) (a : anim) (sy sh y h : R) :
  anim_reals a sy sh y h ->
  draw (Num e) a
  = {| frame_y := Num (sy + (y - sy) * e);
       frame_height := Num (Rmax 1 (sh + (h - sh) * e));
       frame_text_y := Num (sy + (y - sy) * e + (sh + (h - sh) * e) / 2) |}.
Proof.
  intros (E1 & E2 & E3 & E4). unfold draw. rewrite E1, E2, E3, E4.
  cbn [sub mul add lift2 Math_max].
  rewrite div_Num by lra. reflexivity.
Qed.

Lemma between (s t e : R) :
  0 <= e <= 1 -> Rmin s t <= s + (t - s) * e <= Rmax s t.
Proof.
  intros [H0 H1]. unfold Rmin, Rmax. destruct (Rle_dec s t) as [Hle | Hgt].
  - assert (0 <= (t - s) * e) by (apply Rmult_le_pos; lra).
    assert ((t - s) * e <= (t - s) * 1)
      by (apply Rmult_le_compat_l; lra).
    lra.
  - assert (0 <= (s - t) * e) by (apply Rmult_le_pos; lra).
    assert ((s - t) * e <= (s - t) * 1)
      by (apply Rmult_le_compat_l; lra).
    lra.
Qed.

Lemma draw_within (e : R) (a : anim) (sy sh y h : R) :
  anim_reals a sy sh y h -> 4 <= sh -> 10 <= h -> 0 <= e <= 1 ->
  frame_within a (draw (Num e) a).
Proof.
  intros Ha Hsh Hh He.
  pose proof (between sy y e He) as Hy.
  pose proof (between sh h e He) as Hc.
  assert (Hmin : 4 <= Rmin sh h) by (apply Rmin_glb; lra).
  exists sy, sh, y, h, (sy + (y - sy) * e), (sh + (h - sh) * e).
  split; [exact Ha |].
  split.
  - rewrite (draw_reals e a sy sh y h Ha). f_equal.
    rewrite Rmax_right by lra. reflexivity.
  - repeat split; lra.
Qed.

Lemma draw_landed (a : anim) (sy sh y h : R) :
  anim_reals a sy sh y h -> 10 <= h -> draw (Num 1) a = landed a.
Proof.
  intros Ha Hh. rewrite (draw_reals 1 a sy sh y h Ha).
  destruct Ha as (_ & _ & Ey & Eh). unfold landed. rewrite Ey, Eh.
  rewrite div_Num by lra. cbn [add lift2].
  replace (sy + (y - sy) * 1) with y by ring.
  replace (sh + (h - sh) * 1) with h by ring.
  rewrite Rmax_right by lra. reflexivity.
Qed.

Lemma snapshot_snoc (rects : list rect) (r : rect) :
  snapshot (rects ++ [r])
  = if String.eqb (rect_key r) ""
    then snapshot rects
    else fun key =>
           if String.eqb key (rect_key r)
           then Some (or0 (rect_y r), or0 (rect_height r))
           else snapshot rects key.
Proof. unfold snapshot. rewrite fold_left_app. reflexivity. Qed.

Lemma snapshot_finite (rects : list rect) : finite_prev (snapshot rects).
Proof.
  induction rects as [| r rects IH] using rev_ind.
  - intros key y h Hk. discriminate.
  - rewrite snapshot_snoc. destruct (String.eqb (rect_key r) ""); [exact IH |].
    intros key y h Hk. destruct (String.eqb key (rect_key r)).
    + injection Hk as <- <-. split; apply or0_finite.
    + apply (IH key y h Hk).
Qed.

Lemma stacked_from_Forall (y : R) (ts : list target) :
  stacked_from y ts ->
  Forall (fun t => exists ty' h : R,
                     ty t = Num ty' /\ th t = Num h /\ 10 <= h) ts.
Proof.
  revert y. induction ts as [| t ts IH]; intros y Hs; [constructor |].
  destruct Hs as (h & Eh & Hh & Ey & Hrest).
  constructor; [| apply (IH _ Hrest)].
  exists (y - h), h. repeat split; assumption.
Qed.

Lemma addSeg_fields (prev : prev_rects) (baseY fSizeNum : number)
    (t : target) (boxes : list box) :
  let a := fst (addSeg prev baseY fSizeNum t boxes) in
  anim_key a = k (item t) /\ anim_ty a = ty t /\ anim_th a = th t
  /\ sH a = match prev (k (item t)) with
            | Some p => Math_max (Num 4) (snd p)
            | None => Num 8
            end
  /\ sY a = match prev (k (item t)) with
            | Some p => fst p
            | None => sub baseY (Num 8)
            end.
Proof.
  unfold addSeg. cbn [fst anim_key anim_ty anim_th sH sY].
  destruct (prev (k (item t))); repeat split.
Qed.

Lemma addSeg_started (prev : prev_rects) (b : R) (fSizeNum : number)
    (t : target) (boxes : list box) (y h : R) :
  finite_prev prev -> ty t = Num y -> th t = Num h ->
  exists sy sh : R,
    anim_reals (fst (addSeg prev (Num b) fSizeNum t boxes)) sy sh y h
    /\ 4 <= sh.
Proof.
  intros Hp Ey Eh.
  destruct (addSeg_fields prev (Num b) fSizeNum t boxes)
    as (_ & Ety & Eth & EsH & EsY).
  unfold anim_reals. rewrite Ety, Eth, EsH, EsY, Ey, Eh.
  destruct (prev (k (item t))) as [[py ph] |] eqn:E.
  - destruct (Hp _ _ _ E) as [Hy Hh].
    apply isFinite_Num in Hy, Hh. cbn [fst snd]. rewrite Hy, Hh.
    exists (val py), (Rmax 4 (val ph)).
    repeat split. apply Rmax_l.
  - exists (b - 8), 8. repeat split. lra.
Qed.

Lemma addSegs_started (prev : prev_rects) (b : R) (fSizeNum : number)
    (ts : list target) (boxes : list box) :
  finite_prev prev ->
  Forall (fun t => exists ty' h : R,
                     ty t = Num ty' /\ th t = Num h /\ 10 <= h) ts ->
  Forall (fun a => exists sy sh y h : R,
                     anim_reals a sy sh y h /\ 4 <= sh /\ 10 <= h)
         (addSegs prev (Num b) fSizeNum ts boxes).
Proof.
  intros Hp Hts. revert boxes.
  induction Hts as [| t ts (y & h & Ey & Eh & Hh) _ IH]; intros boxes;
    [constructor |].
  cbn [addSegs].
  destruct (addSeg_started prev b fSizeNum t boxes y h Hp Ey Eh)
    as (sy & sh & Ha & Hsh).
  destruct (addSeg prev (Num b) fSizeNum t boxes) as [a boxes'].
  cbn [fst] in Ha.
  constructor; [| apply IH].
  exists sy, sh, y, h. split; [exact Ha | split; assumption].
Qed.

Lemma maxStack_nonzero (vals : Vals.t) :
  exists m : R, maxStack (renderGamblegram vals) = Num m /\ 1 <= m.
Proof.
  eexists. split; [apply maxStack_val | apply Rmax_r].
Qed.

Lemma column_targets (vals : Vals.t) (H baseY : R) :
  let g := renderGamblegram vals in
  Forall (fun t => exists ty' h : R,
                     ty t = Num ty' /\ th t = Num h /\ 10 <= h)
         (targets (maxStack g) (Num H) (Num baseY) (cations g)
          ++ targets (maxStack g) (Num H) (Num baseY) (anions g)).
Proof.
  intros g. subst g.
  destruct (maxStack_nonzero vals) as (m & Em & Hm).
  destruct (stack_finite vals) as [Hc Ha]. rewrite Em.
  assert (Hm0 : m <> 0) by lra.
  destruct (targets_stacked m H baseY _ Hm0 Hc) as (Hsc & _).
  destruct (targets_stacked m H baseY _ Hm0 Ha) as (Hsa & _).
  apply Forall_app. split; eapply stacked_from_Forall; eassumption.
Qed.

Lemma animations_started (prev : prev_rects) (vals : Vals.t)
    (H baseY : R) (fSizeNum : number) :
  finite_prev prev ->
  Forall (fun a => exists sy sh y h : R,
                     anim_reals a sy sh y h /\ 4 <= sh /\ 10 <= h)
         (animations prev (Num H) (Num baseY) fSizeNum
                     (renderGamblegram vals)).
Proof.
  intros Hp. unfold animations.
  pose proof (column_targets vals H baseY) as Ht. cbv zeta in Ht.
  apply Forall_app in Ht. destruct Ht as [Hc Ha].
  apply Forall_app. split; apply addSegs_started; assumption.
Qed.

(** X12: between the start of an animation and its end no bar overshoots:
    at any time [now >= t0] every bar is drawn between where it started and
    where it is going, with a height between the two heights and at least
    4, and its label on the middle of the bar. *)
Theorem X12_frames_stay_between_start_and_target
    (vals : Vals.t) (rects : list rect) (H baseY fSizeNum t0 now : R) :
  t0 <= now ->
  let anims :=
    animations (snapshot rects) (Num H) (Num baseY) (Num fSizeNum)
               (renderGamblegram vals) in
  Forall2 frame_within anims (fst (tick (Num t0) (Num now) anims)).
Proof.
  intros Hnow anims.
  unfold tick. cbn [fst]. rewrite progress_Num, ease_Num.
  pose proof (ease_range _ (progress_range t0 now Hnow)) as He.
  pose proof (animations_started (snapshot rects) vals H baseY
                (Num fSizeNum) (snapshot_finite rects)) as Hs.
  fold anims in Hs.
  induction Hs as [| a l (sy & sh & y & h & Ha & Hsh & Hh) _ IH];
    cbn [map]; constructor; [| exact IH].
  apply (draw_within _ a sy sh y h Ha Hsh Hh He).
Qed.

Lemma X12_frames_witness :
  0 <= 100
  /\ Forall2 frame_within
       (animations (snapshot []) (Num 600) (Num 620) (Num 14)
                   (renderGamblegram (only_sig 5)))
       (fst (tick (Num 0) (Num 100)
               (animations (snapshot []) (Num 600) (Num 620) (Num 14)
                           (renderGamblegram (only_sig 5))))).
Proof.
  split; [lra |].
  apply (X12_frames_stay_between_start_and_target
           (only_sig 5) [] 600 620 14 0 100). lra.
Defined.

Lemma lt_progress (t0 now : R) :
  lt (progress (Num t0) (Num now)) (Num 1)
  = if Rlt_dec (now - t0) 360 then true else false.
Proof.
  rewrite progress_Num. unfold lt. rewrite gt_Num.
  unfold Rmin.
  destruct (Rle_dec 1 ((now - t0) / 360)) as [H | H];
    destruct (Rlt_dec (now - t0) 360) as [H' | H'];
    match goal with
    | |- (if ?c then _ else _) = _ => destruct c
    end; try reflexivity; lra.
Qed.

Lemma tick_done (t0 now : R) (anims : list anim) :
  360 <= now - t0 ->
  Forall (fun a => exists sy sh y h : R,
                     anim_reals a sy sh y h /\ 4 <= sh /\ 10 <= h) anims ->
  fst (tick (Num t0) (Num now) anims) = map landed anims.
Proof.
  intros Hd Hs. unfold tick. cbn [fst].
  rewrite progress_Num, (progress_done t0 now Hd), ease_Num.
  replace (1 - (1 - 1) ^ 3) with 1 by ring.
  apply map_ext_in. intros a Ha.
  rewrite Forall_forall in Hs.
  destruct (Hs a Ha) as (sy & sh & y & h & Hr & _ & Hh).
  apply (draw_landed a sy sh y h Hr Hh).
Qed.

(** X13: the animation asks for another frame exactly as long as less than
    360 ms have passed, and from 360 ms on every bar is drawn at its
    target, with its target height and its label on the middle. *)
Theorem X13_animation_lands_on_target
    (vals : Vals.t) (rects : list rect) (H baseY fSizeNum t0 now : R) :
  360 <= now - t0 ->
  let anims :=
    animations (snapshot rects) (Num H) (Num baseY) (Num fSizeNum)
               (renderGamblegram vals) in
  tick (Num t0) (Num now) anims = (map landed anims, false)
  /\ forall earlier : R,
       earlier - t0 < 360 -> snd (tick (Num t0) (Num earlier) anims) = true.
Proof.
  intros Hd anims. split.
  - rewrite (surjective_pairing (tick (Num t0) (Num now) anims)). f_equal.
    + apply (tick_done t0 now anims Hd).
      apply animations_started, snapshot_finite.
    + unfold tick. cbn [snd]. rewrite lt_progress.
      destruct (Rlt_dec (now - t0) 360); [lra | reflexivity].
  - intros earlier He. unfold tick. cbn [snd]. rewrite lt_progress.
    destruct (Rlt_dec (earlier - t0) 360); [reflexivity | lra].
Qed.

Lemma X13_animation_witness :
  360 <= 400 - 0
  /\ 100 - 0 < 360
  /\ tick (Num 0) (Num 400)
       (animations (snapshot []) (Num 600) (Num 620) (Num 14)
                   (renderGamblegram (only_sig 5)))
     = (map landed
          (animations (snapshot []) (Num 600) (Num 620) (Num 14)
                      (renderGamblegram (only_sig 5))), false)
  /\ snd (tick (Num 0) (Num 100)
            (animations (snapshot []) (Num 600) (Num 620) (Num 14)
                        (renderGamblegram (only_sig 5)))) = true.
Proof.
  split; [lra |]. split; [lra |].
  destruct (X13_animation_lands_on_target (only_sig 5) [] 600 620 14 0 400)
    as [Hlate Hearly]; [lra |].
  split; [exact Hlate | apply (Hearly 100); lra].
Defined.

(* ================================================================== *)
(** ** Keys of the segments; legend; a second render *)
(* ================================================================== *)

Lemma lt_gt_exclusive (x : number) :
  lt x (Num (-0.0001)) = true -> gt x (Num 0.0001) = true -> False.
Proof.
  destruct x as [r |]; unfold lt; cbn [gt]; [| discriminate].
  destruct (Rlt_dec r (-0.0001)), (Rlt_dec 0.0001 r);
    try discriminate; lra.
Qed.

Ltac distinct_keys :=
  repeat (constructor; [simpl; intuition discriminate |]); constructor.

Ltac nonempty_keys :=
  repeat (constructor; [simpl; discriminate |]); constructor.

(** Every segment of the chart has a key of its own, none of them empty. *)
Lemma segment_keys (vals : Vals.t) :
  let g := renderGamblegram vals in
  NoDup (map k (cations g ++ anions g))
  /\ Forall (fun x => k x <> ""%string) (cations g ++ anions g).
Proof.
  intros g. subst g. rewrite cations_render, anions_render.
  set (Kc := known_cations vals). set (Ka := known_anions vals).
  assert (Hperm : forall uc ua : list seg,
            Permutation ((sort by_value_desc Kc ++ uc)
                         ++ (sort by_value_desc Ka ++ ua))
                        ((Kc ++ uc) ++ (Ka ++ ua))).
  { intros uc ua. rewrite (sort_Permutation by_value_desc Kc),
      (sort_Permutation by_value_desc Ka). reflexivity. }
  destruct (lt (or0 (Vals.sig vals)) (Num (-0.0001))) eqn:El;
    destruct (gt (or0 (Vals.sig vals)) (Num 0.0001)) eqn:Eg.
  - exfalso. apply (lt_gt_exclusive _ El Eg).
  - split.
    + eapply Permutation_NoDup;
        [apply Permutation_map, Permutation_sym, Hperm |].
      subst Kc Ka. cbn [known_cations known_anions map app k unknown_seg].
      distinct_keys.
    + eapply Permutation_Forall; [apply Permutation_sym, Hperm |].
      subst Kc Ka. cbn [known_cations known_anions app]. nonempty_keys.
  - split.
    + eapply Permutation_NoDup;
        [apply Permutation_map, Permutation_sym, Hperm |].
      subst Kc Ka. cbn [known_cations known_anions map app k unknown_seg].
      distinct_keys.
    + eapply Permutation_Forall; [apply Permutation_sym, Hperm |].
      subst Kc Ka. cbn [known_cations known_anions app]. nonempty_keys.
  - split.
    + eapply Permutation_NoDup;
        [apply Permutation_map, Permutation_sym, Hperm |].
      subst Kc Ka. cbn [known_cations known_anions map app k unknown_seg].
      distinct_keys.
    + eapply Permutation_Forall; [apply Permutation_sym, Hperm |].
      subst Kc Ka. cbn [known_cations known_anions app]. nonempty_keys.
Qed.

Lemma unseen_fresh (seen : list string) (l : list seg) :
  NoDup (seen ++ map k l) -> unseen seen l = l.
Proof.
  revert seen. induction l as [| x l IH]; intros seen Hnd; [reflexivity |].
  cbn [unseen map] in *.
  assert (Hx : existsb (String.eqb (k x)) seen = false).
  { destruct (existsb (String.eqb (k x)) seen) eqn:E; [| reflexivity].
    apply existsb_exists in E. destruct E as (s & Hs & Es).
    apply String.eqb_eq in Es. subst s.
    apply NoDup_remove_2 in Hnd. exfalso. apply Hnd.
    apply in_or_app. left. exact Hs. }
  rewrite Hx. f_equal. apply IH.
  cbn [app]. constructor.
  - apply NoDup_remove_2 in Hnd. exact Hnd.
  - apply NoDup_remove_1 in Hnd. exact Hnd.
Qed.

(** X14: the legend lists every segment of the chart exactly once, the
    anions in stack order and then the cations: no two segments share a
    key, so the filter on keys already seen drops nothing. *)
Theorem X14_legend_lists_every_segment (vals : Vals.t) :
  let g := renderGamblegram vals in
  legend g = anions g ++ cations g
  /\ NoDup (map k (legend g)).
Proof.
  intros g.
  destruct (segment_keys vals) as [Hnd _]. fold g in Hnd.
  assert (Hnd' : NoDup (map k (anions g ++ cations g))).
  { eapply Permutation_NoDup; [| exact Hnd].
    apply Permutation_map, Permutation_app_comm. }
  assert (E : legend g = anions g ++ cations g)
    by (unfold legend; apply unseen_fresh; exact Hnd').
  split; [exact E | rewrite E; exact Hnd'].
Qed.

Lemma snapshot_lookup (rects : list rect) (r : rect) :
  NoDup (map rect_key rects) -> In r rects -> rect_key r <> ""%string ->
  snapshot rects (rect_key r) = Some (or0 (rect_y r), or0 (rect_height r)).
Proof.
  induction rects as [| x rects IH] using rev_ind; intros Hnd Hin Hne;
    [contradiction |].
  rewrite snapshot_snoc.
  rewrite map_app in Hnd. cbn [map] in Hnd.
  assert (Hnd' : NoDup (map rect_key rects)).
  { apply NoDup_remove_1 in Hnd. rewrite app_nil_r in Hnd. exact Hnd. }
  assert (Hx : ~ In (rect_key x) (map rect_key rects)).
  { apply NoDup_remove_2 in Hnd. rewrite app_nil_r in Hnd. exact Hnd. }
  apply in_app_or in Hin. destruct Hin as [Hin | [<- | []]].
  - assert (Hkey : String.eqb (rect_key r) (rect_key x) = false).
    { apply String.eqb_neq. intros E. apply Hx. rewrite <- E.
      apply in_map. exact Hin. }
    destruct (String.eqb (rect_key x) ""); [apply IH; assumption |].
    rewrite Hkey. apply IH; assumption.
  - apply String.eqb_neq in Hne. rewrite Hne, String.eqb_refl. reflexivity.
Qed.

Lemma addSegs_targets (prev : prev_rects) (baseY fSizeNum : number)
    (ts : list target) (boxes : list box) :
  Forall2 (fun t a =>
             anim_key a = k (item t) /\ anim_ty a = ty t /\ anim_th a = th t
             /\ sH a = match prev (k (item t)) with
                       | Some p => Math_max (Num 4) (snd p)
                       | None => Num 8
                       end
             /\ sY a = match prev (k (item t)) with
                       | Some p => fst p
                       | None => sub baseY (Num 8)
                       end)
          ts (addSegs prev baseY fSizeNum ts boxes).
Proof.
  revert boxes. induction ts as [| t ts IH]; intros boxes; [constructor |].
  cbn [addSegs].
  pose proof (addSeg_fields prev baseY fSizeNum t boxes) as Hf.
  destruct (addSeg prev baseY fSizeNum t boxes) as [a boxes'].
  constructor; [exact Hf | apply IH].
Qed.

Lemma combine_map {A B : Type} (f : A -> B) (l : list A) :
  combine l (map f l) = map (fun x => (x, f x)) l.
Proof. induction l as [| x l IH]; simpl; [| rewrite IH]; reflexivity. Qed.

(** The page once the bars [anims] of the targets [ts] have landed. *)
Lemma drawn_landed (ts : list target) (anims : list anim) :
  Forall2 (fun t a =>
             anim_key a = k (item t) /\ anim_ty a = ty t /\ anim_th a = th t)
          ts anims ->
  drawn anims (map landed anims) = map rect_of ts.
Proof.
  intros H. unfold drawn. rewrite combine_map, map_map.
  induction H as [| t a ts anims (Ek & Ey & Eh) _ IH]; [reflexivity |].
  cbn [map]. rewrite IH. f_equal.
  cbn [fst snd landed frame_y frame_height].
  unfold rect_of. rewrite Ek, Ey, Eh. reflexivity.
Qed.

Lemma Forall2_weaken {A B : Type} (P Q : A -> B -> Prop)
    (l : list A) (l' : list B) :
  (forall x y, P x y -> Q x y) -> Forall2 P l l' -> Forall2 Q l l'.
Proof. intros HPQ H. induction H; constructor; auto. Qed.

Lemma restart_at_target (prev : prev_rects) (baseY fSizeNum : number)
    (ts : list target) (boxes : list box) :
  Forall (fun t => prev (k (item t)) = Some (ty t, th t)
                   /\ exists y h : R,
                        ty t = Num y /\ th t = Num h /\ 10 <= h) ts ->
  Forall (fun a => sY a = anim_ty a /\ sH a = anim_th a
                   /\ exists y h : R, anim_reals a y h y h /\ 10 <= h)
         (addSegs prev baseY fSizeNum ts boxes).
Proof.
  intros Hts.
  pose proof (addSegs_targets prev baseY fSizeNum ts boxes) as H2.
  induction H2 as [| t a ts anims (_ & Ey & Eh & EsH & EsY) _ IH];
    [constructor |].
  inversion Hts as [| ? ? (Ep & y & h & Ety & Eth & Hh) Hrest]; subst.
  constructor; [| apply IH, Hrest].
  rewrite Ep in EsH, EsY. cbn [fst snd] in EsH, EsY.
  rewrite Eth in EsH. cbn [Math_max lift2] in EsH.
  rewrite Rmax_right in EsH by lra.
  assert (E1 : sY a = anim_ty a) by congruence.
  assert (E2 : sH a = anim_th a) by congruence.
  split; [exact E1 | split; [exact E2 |]].
  exists y, h. unfold anim_reals. rewrite E1, E2, Ey, Eh.
  repeat split; assumption.
Qed.

Lemma draw_still (e : R) (a : anim) (y h : R) :
  anim_reals a y h y h -> 10 <= h -> draw (Num e) a = landed a.
Proof.
  intros Ha Hh. rewrite (draw_reals e a y h y h Ha).
  destruct Ha as (_ & _ & Ey & Eh). unfold landed. rewrite Ey, Eh.
  rewrite div_Num by lra. cbn [add lift2].
  replace (y + (y - y) * e) with y by ring.
  replace (h + (h - h) * e) with h by ring.
  rewrite Rmax_right by lra. reflexivity.
Qed.

Lemma same_targets_same_landing (ts : list target) (l1 l2 : list anim) :
  Forall2 (fun t a =>
             anim_key a = k (item t) /\ anim_ty a = ty t /\ anim_th a = th t)
          ts l1 ->
  Forall2 (fun t a =>
             anim_key a = k (item t) /\ anim_ty a = ty t /\ anim_th a = th t)
          ts l2 ->
  map landed l1 = map landed l2.
Proof.
  intros H1. revert l2.
  induction H1 as [| t a ts l (_ & Ey & Eh) _ IH]; intros l2 H2;
    inversion H2 as [| ? b ? l' (_ & Ey' & Eh') Hr]; subst; [reflexivity |].
  cbn [map]. f_equal; [| apply IH, Hr].
  unfold landed. rewrite Ey, Eh, Ey', Eh'. reflexivity.
Qed.

(** X15: drawing the same chart again once its animation has ended moves
    nothing: every bar of the second render starts where it already stands
    (start position and height equal to the target), so every frame of the
    second animation, at any time, is the final frame of the first. *)
Theorem X15_same_chart_again_does_not_move
    (vals : Vals.t) (rects : list rect)
    (H baseY fSizeNum t0 now t1 later : R) :
  360 <= now - t0 ->
  let g := renderGamblegram vals in
  let first :=
    animations (snapshot rects) (Num H) (Num baseY) (Num fSizeNum) g in
  let page := drawn first (fst (tick (Num t0) (Num now) first)) in
  let second :=
    animations (snapshot page) (Num H) (Num baseY) (Num fSizeNum) g in
  Forall (fun a => sY a = anim_ty a /\ sH a = anim_th a) second
  /\ fst (tick (Num t1) (Num later) second)
     = fst (tick (Num t0) (Num now) first).
Proof.
  intros Hd g first page second.
  set (cT := targets (maxStack g) (Num H) (Num baseY) (cations g)).
  set (aT := targets (maxStack g) (Num H) (Num baseY) (anions g)).
  (* the first render *)
  assert (Hfirst : Forall2 (fun t a =>
             anim_key a = k (item t) /\ anim_ty a = ty t /\ anim_th a = th t)
             (cT ++ aT) first).
  { unfold first, animations. fold cT aT. apply Forall2_app;
      (eapply Forall2_weaken; [| apply addSegs_targets]);
      intros t a (E1 & E2 & E3 & _); repeat split; assumption. }
  assert (Hstarted : Forall (fun a => exists sy sh y h : R,
             anim_reals a sy sh y h /\ 4 <= sh /\ 10 <= h) first)
    by apply animations_started, snapshot_finite.
  assert (Hpage : page = map rect_of (cT ++ aT)).
  { unfold page. rewrite (tick_done t0 now first Hd Hstarted).
    apply drawn_landed, Hfirst. }
  (* what the second render finds on the page *)
  pose proof (column_targets vals H baseY) as Hts. cbv zeta in Hts.
  fold g cT aT in Hts.
  destruct (maxStack_nonzero vals) as (m & Em & Hm). fold g in Em.
  destruct (stack_finite vals) as [Hc Ha]. fold g in Hc, Ha.
  assert (Hm0 : m <> 0) by lra.
  assert (Hitems : map item (cT ++ aT) = cations g ++ anions g).
  { rewrite map_app. unfold cT, aT. rewrite Em.
    destruct (targets_stacked m H baseY _ Hm0 Hc) as (_ & -> & _).
    destruct (targets_stacked m H baseY _ Hm0 Ha) as (_ & -> & _).
    reflexivity. }
  destruct (segment_keys vals) as [Hnd Hne]. fold g in Hnd, Hne.
  assert (Hkeys : map rect_key (map rect_of (cT ++ aT))
                  = map k (cations g ++ anions g)).
  { rewrite <- Hitems, !map_map. reflexivity. }
  assert (Hprev : Forall (fun t =>
             snapshot page (k (item t)) = Some (ty t, th t)
             /\ exists y h : R, ty t = Num y /\ th t = Num h /\ 10 <= h)
             (cT ++ aT)).
  { rewrite Forall_forall. intros t Ht.
    rewrite Forall_forall in Hts. destruct (Hts t Ht) as (y & h & Ey & Eh & Hh).
    split; [| exists y, h; repeat split; assumption].
    rewrite Hpage.
    change (k (item t)) with (rect_key (rect_of t)).
    rewrite snapshot_lookup.
    - cbn [rect_of rect_y rect_height]. rewrite Ey, Eh, !or0_val. reflexivity.
    - rewrite Hkeys. exact Hnd.
    - apply in_map. exact Ht.
    - cbn [rect_of rect_key]. rewrite Forall_forall in Hne. apply Hne.
      rewrite <- Hitems. apply in_map. exact Ht. }
  apply Forall_app in Hprev. destruct Hprev as [HpC HpA].
  assert (Hsecond : Forall (fun a => sY a = anim_ty a /\ sH a = anim_th a
             /\ exists y h : R, anim_reals a y h y h /\ 10 <= h) second).
  { unfold second, animations. fold cT aT.
    apply Forall_app. split; apply restart_at_target; assumption. }
  split.
  - eapply Forall_impl; [| exact Hsecond]. intros a (E1 & E2 & _). auto.
  - rewrite (tick_done t0 now first Hd Hstarted).
    unfold tick. cbn [fst]. rewrite progress_Num, ease_Num.
    transitivity (map landed second).
    + apply map_ext_in. intros a Hin. rewrite Forall_forall in Hsecond.
      destruct (Hsecond a Hin) as (_ & _ & y & h & Hr & Hh).
      apply (draw_still _ a y h Hr Hh).
    + (* both renders have the same targets *)
      assert (Hsec2 : Forall2 (fun t a =>
                anim_key a = k (item t) /\ anim_ty a = ty t
                /\ anim_th a = th t) (cT ++ aT) second).
      { unfold second, animations. fold cT aT. apply Forall2_app;
          (eapply Forall2_weaken; [| apply addSegs_targets]);
          intros t a (E1 & E2 & E3 & _); repeat split; assumption. }
      apply (same_targets_same_landing (cT ++ aT)); assumption.
Qed.

Lemma X15_same_chart_witness :
  360 <= 400 - 0
  /\ fst (tick (Num 1000) (Num 1100)
            (animations
               (snapshot
                  (drawn
                     (animations (snapshot []) (Num 600) (Num 620) (Num 14)
                                 (renderGamblegram (only_sig 5)))
                     (fst (tick (Num 0) (Num 400)
                             (animations (snapshot []) (Num 600) (Num 620)
                                         (Num 14)
                                         (renderGamblegram (only_sig 5)))))))
               (Num 600) (Num 620) (Num 14) (renderGamblegram (only_sig 5))))
     = fst (tick (Num 0) (Num 400)
              (animations (snapshot []) (Num 600) (Num 620) (Num 14)
                          (renderGamblegram (only_sig 5)))).
Proof.
  split; [lra |].
  apply (X15_same_chart_again_does_not_move
           (only_sig 5) [] 600 620 14 0 400 1000 1100). lra.
Defined.

(* ================================================================== *)
(** ** Label placement *)
(* ================================================================== *)

Lemma avoid_Num (half L y h : R) :
  avoid (Num half) (Num L) (box_at (y, h))
  = Num (if Rlt_dec (Rabs (L - y)) (half + h / 2 + 2)
         then y + h / 2 + half + 2 else L).
Proof.
  unfold avoid, box_at. cbn [box_y box_h fst snd sub lift2 Math_abs lift1].
  rewrite div_Num by lra. cbn [add lift2]. unfold lt. rewrite gt_Num.
  destruct (Rlt_dec (Rabs (L - y)) (half + h / 2 + 2)); reflexivity.
Qed.

Lemma avoid_step (half L y h : R) :
  exists L' : R,
    avoid (Num half) (Num L) (box_at (y, h)) = Num L'
    /\ L <= L'
    /\ half + h / 2 + 2 <= Rabs (L' - y)
    /\ (L' = L \/ L' = y + (half + h / 2 + 2)).
Proof.
  rewrite avoid_Num.
  destruct (Rlt_dec (Rabs (L - y)) (half + h / 2 + 2)) as [Hc | Hc].
  - exists (y + h / 2 + half + 2). split; [reflexivity |].
    assert (Hb := Hc). unfold Rabs in Hb. destruct (Rcase_abs (L - y)) in Hb.
    + repeat split; try lra.
      replace (y + h / 2 + half + 2 - y) with (half + h / 2 + 2) by ring.
      apply Rle_abs.
    + repeat split; try lra.
      replace (y + h / 2 + half + 2 - y) with (half + h / 2 + 2) by ring.
      apply Rle_abs.
  - exists L. split; [reflexivity |]. repeat split; try lra.
Qed.

Lemma fold_avoid_snoc (half : number) (bs : list box) (b : box) (L : number) :
  fold_left (avoid half) (bs ++ [b]) L
  = avoid half (fold_left (avoid half) bs L) b.
Proof. rewrite fold_left_app. reflexivity. Qed.

Lemma ascending_snoc (bs : list (R * R)) (b : R * R) :
  StronglySorted (fun p q => fst p <= fst q) (bs ++ [b]) ->
  StronglySorted (fun p q => fst p <= fst q) bs
  /\ Forall (fun p => fst p <= fst b) bs.
Proof.
  induction bs as [| x bs IH]; cbn [app]; intros H.
  - split; constructor.
  - inversion H as [| ? ? Hs Hall]; subst.
    destruct (IH Hs) as [Hs' Hle].
    apply Forall_app in Hall. destruct Hall as [Hall Hb].
    split; constructor; try assumption.
    inversion Hb; assumption.
Qed.

(** X16: the collision loop of [addSeg] only ever moves a label down; it
    leaves the label clear of the box it checked last; and when the boxes
    checked have one height and lie in top-to-bottom order, it leaves the
    label clear of every one of them. *)
Theorem X16_label_avoids_boxes (half L : R) (bs : list (R * R)) :
  exists L' : R,
    fold_left (avoid (Num half)) (map box_at bs) (Num L) = Num L'
    /\ L <= L'
    /\ (forall front b, bs = front ++ [b] -> clear_of half L' (box_at b))
    /\ (forall h : R,
          Forall (fun p => snd p = h) bs ->
          StronglySorted (fun p q => fst p <= fst q) bs ->
          Forall (fun p => clear_of half L' (box_at p)) bs).
Proof.
  induction bs as [| [y h] bs IH] using rev_ind.
  - exists L. cbn [map fold_left]. split; [reflexivity |].
    split; [lra |]. split.
    + intros front b E. destruct front; discriminate.
    + intros h _ _. constructor.
  - destruct IH as (L1 & E1 & Hmono & _ & Hall).
    rewrite map_app. cbn [map]. rewrite fold_avoid_snoc, E1.
    destruct (avoid_step half L1 y h) as (L' & E' & Hle & Hclear & Hcase).
    exists L'. split; [exact E' |]. split; [lra |]. split.
    + intros front b E. apply app_inj_tail in E. destruct E as [_ <-].
      unfold clear_of. cbn [box_at box_y box_h fst snd val]. exact Hclear.
    + intros h' Hh Hs.
      apply Forall_app in Hh. destruct Hh as [Hh Hh'].
      inversion Hh' as [| ? ? Eh _]; subst. cbn [snd] in *.
      apply ascending_snoc in Hs. destruct Hs as [Hs Hbelow].
      specialize (Hall h Hh Hs).
      apply Forall_app. split.
      * rewrite Forall_forall in *. intros [y0 h0] Hin.
        specialize (Hall _ Hin). specialize (Hbelow _ Hin).
        specialize (Hh _ Hin). cbn [fst snd] in *. subst h0.
        unfold clear_of in *. cbn [box_at box_y box_h fst snd val] in *.
        destruct Hcase as [-> | ->]; [exact Hall |].
        unfold Rabs. destruct (Rcase_abs (y + (half + h / 2 + 2) - y0)); lra.
      * constructor; [| constructor].
        unfold clear_of. cbn [box_at box_y box_h fst snd val]. exact Hclear.
Qed.

Lemma X16_label_witness :
  exists L' : R,
    fold_left (avoid (Num 8)) (map box_at [(100, 16); (110, 16)]) (Num 105)
    = Num L'
    /\ 105 <= L'
    /\ clear_of 8 L' (box_at (110, 16))
    /\ Forall (fun p => clear_of 8 L' (box_at p)) [(100, 16); (110, 16)].
Proof.
  destruct (X16_label_avoids_boxes 8 105 [(100, 16); (110, 16)])
    as (L' & E & Hm & Hlast & Hall).
  exists L'. split; [exact E |]. split; [exact Hm |]. split.
  - apply (Hlast [(100, 16)] (110, 16)). reflexivity.
  - apply (Hall 16).
    + repeat constructor.
    + repeat constructor; simpl; lra.
Defined.

(* ================================================================== *)
(** ** More on units *)
(* ================================================================== *)

Lemma factor_cases (id unit : string) :
  (exists mw : R,
      20 <= mw
      /\ (forall x : R,
            displayToSI id (Num x) unit = mul (Num x) (Num (10 / mw)))
      /\ (forall x : R,
            siToDisplay id (Num x) unit = div (Num x) (Num (10 / mw))))
  \/ ((forall x : R, displayToSI id (Num x) unit = Num x)
      /\ (forall x : R, siToDisplay id (Num x) unit = Num x)).
Proof.
  unfold displayToSI, siToDisplay. cbn [isFinite negb].
  rewrite MG_FACTOR_val, CA_FACTOR_val, LAC_FACTOR_val, PO4_FACTOR_val.
  destruct (String.eqb unit "mgdl"); [| right; split; reflexivity].
  destruct (String.eqb id "mg");
    [left; exists 24.305; repeat split; lra |].
  destruct (String.eqb id "ica");
    [left; exists 40.08; repeat split; lra |].
  destruct (String.eqb id "lac");
    [left; exists 89.07; repeat split; lra |].
  destruct (String.eqb id "phos");
    [left; exists 30.97; repeat split; lra |].
  right; split; reflexivity.
Qed.

Lemma factor_nonzero (mw : R) : 0 < mw -> 10 / mw <> 0.
Proof. intros H. apply Rgt_not_eq, Rlt_gt, Rdiv_lt_0_compat; lra. Qed.

Lemma scale_there (x mw : R) :
  0 < mw -> mul (div (Num x) (Num (10 / mw))) (Num (10 / mw)) = Num x.
Proof.
  intros Hmw. rewrite div_Num by (apply factor_nonzero; exact Hmw).
  cbn [mul lift2]. f_equal. field. lra.
Qed.

(** X17: [displayToSI] and [siToDisplay] undo each other in both
    directions, for every ion id and every unit (an id or unit without a
    factor is passed through), and [getIonSI] converts exactly as
    [displayToSI] does. *)
Theorem X17_conversions_are_inverse (id unit : string) (x : R) :
  siToDisplay id (displayToSI id (Num x) unit) unit = Num x
  /\ displayToSI id (siToDisplay id (Num x) unit) unit = Num x
  /\ forall d : Dom,
       getIonSI d id = displayToSI id (parse d id) (unit_select d id).
Proof.
  split; [| split].
  - destruct (factor_cases id unit) as [(mw & Hmw & Hto & Hfrom) | [Hto Hfrom]].
    + rewrite Hto. cbn [mul lift2]. rewrite Hfrom.
      change (Num (x * (10 / mw))) with (mul (Num x) (Num (10 / mw))).
      apply scale_back. lra.
    + rewrite Hto, Hfrom. reflexivity.
  - destruct (factor_cases id unit) as [(mw & Hmw & Hto & Hfrom) | [Hto Hfrom]].
    + assert (Hpos : 0 < mw) by lra.
      rewrite Hfrom. rewrite div_Num by (apply factor_nonzero; exact Hpos).
      rewrite Hto.
      rewrite <- (div_Num x (10 / mw)) by (apply factor_nonzero; exact Hpos).
      apply scale_there. exact Hpos.
    + rewrite Hfrom, Hto. reflexivity.
  - intros d. reflexivity.
Qed.








(* ================================================================== *)
(** ** More on the formula library: ranges and monotonicity *)
(* ================================================================== *)

Lemma pow10_lt (x y : R) : x < y -> pow10 x < pow10 y.
Proof. intros H. unfold pow10. apply Rpower_lt; lra. Qed.

Lemma pow10_succ (x : R) : pow10 (x + 1) = pow10 x * 10.
Proof.
  rewrite pow10_plus. f_equal. unfold pow10. apply Rpower_1. lra.
Qed.

(** X20: the bicarbonate derived from the blood gas grows tenfold with
    every unit of pH, and for a positive pCO2 it is positive and strictly
    increasing in pH. *)
Theorem X20_bicarbonate_grows_with_pH (pH1 pH2 pCO2 : R) :
  0 < pCO2 -> pH1 < pH2 ->
  exists b1 b2 b1' : R,
    hco3FromPHandPco2 (Num pH1) (Num pCO2) = Num b1
    /\ hco3FromPHandPco2 (Num pH2) (Num pCO2) = Num b2
    /\ hco3FromPHandPco2 (Num (pH1 + 1)) (Num pCO2) = Num b1'
    /\ 0 < b1 /\ b1 < b2 /\ b1' = 10 * b1.
Proof.
  intros Hc Hp.
  exists (Spec.bicarbonate pH1 pCO2), (Spec.bicarbonate pH2 pCO2),
         (Spec.bicarbonate (pH1 + 1) pCO2).
  rewrite !hco3FromPHandPco2_Num.
  repeat (split; [reflexivity |]).
  unfold Spec.bicarbonate, Spec.alpha, Spec.pKa_CO2.
  pose proof (pow10_pos (pH1 - 6.1)) as H1.
  pose proof (pow10_lt (pH1 - 6.1) (pH2 - 6.1) ltac:(lra)) as H12.
  assert (Hk : 0 < 0.03 * pCO2) by (apply Rmult_lt_0_compat; lra).
  split; [apply Rmult_lt_0_compat; assumption |].
  split; [apply Rmult_lt_compat_l; assumption |].
  replace (pH1 + 1 - 6.1) with (pH1 - 6.1 + 1) by ring.
  rewrite pow10_succ. ring.
Qed.

Lemma X20_bicarbonate_witness :
  exists b1 b2 b1' : R,
    hco3FromPHandPco2 (Num 7.3) (Num 40) = Num b1
    /\ hco3FromPHandPco2 (Num 7.4) (Num 40) = Num b2
    /\ hco3FromPHandPco2 (Num (7.3 + 1)) (Num 40) = Num b1'
    /\ 0 < b1 /\ b1 < b2 /\ b1' = 10 * b1.
Proof. apply (X20_bicarbonate_grows_with_pH 7.3 7.4 40); lra. Defined.

(** The charge fraction of phosphate as a function of [H]. *)
Lemma z_as_fraction (pH : R) :
  let H := pow10 (- pH) in
  let a := pow10 (- 1.915) in
  let b := pow10 (- 1.915) * pow10 (- 6.66) in
  let c := pow10 (- 1.915) * pow10 (- 6.66) * pow10 (- 11.78) in
  Spec.z pH
  = (a * H * H + 2 * b * H + 3 * c) / (H * H * H + a * H * H + b * H + c)
  /\ 0 < H /\ 0 < a /\ 0 < b /\ 0 < c.
Proof.
  intros H a b c. split.
  - unfold Spec.z. cbv zeta. fold H. f_equal; unfold a, b, c; ring.
  - pose proof (pow10_pos (- 1.915)). pose proof (pow10_pos (- 6.66)).
    pose proof (pow10_pos (- 11.78)).
    repeat split; try apply pow10_pos;
      unfold b, c; repeat apply Rmult_lt_0_compat; assumption.
Qed.

Lemma cubic_pos (H a b c : R) :
  0 < H -> 0 < a -> 0 < b -> 0 < c ->
  0 < H * H * H /\ 0 < a * H * H /\ 0 < b * H.
Proof.
  intros HH Ha Hb Hc. repeat split; repeat apply Rmult_lt_0_compat; assumption.
Qed.

Lemma z_range (pH : R) : 0 < Spec.z pH < 3.
Proof.
  destruct (z_as_fraction pH) as (E & HH & Ha & Hb & Hc). cbv zeta in E.
  rewrite E.
  destruct (cubic_pos _ _ _ _ HH Ha Hb Hc) as (H3 & H2 & H1).
  set (H := pow10 (- pH)) in *. set (a := pow10 (- 1.915)) in *.
  set (b := a * pow10 (- 6.66)) in *. set (c := b * pow10 (- 11.78)) in *.
  set (h3 := H * H * H) in *. set (h2 := a * H * H) in *.
  set (h1 := b * H) in *.
  assert (Hd : 0 < h3 + h2 + h1 + c) by lra.
  split.
  - apply Rdiv_lt_0_compat; [| exact Hd].
    replace (2 * b * H) with (2 * h1) by (unfold h1; ring). lra.
  - apply (Rmult_lt_reg_r (h3 + h2 + h1 + c)); [exact Hd |].
    unfold Rdiv. rewrite Rmult_assoc, Rinv_l by lra.
    replace (2 * b * H) with (2 * h1) by (unfold h1; ring). lra.
Qed.

(** X21: the phosphate charge is the phosphate concentration times a
    charge fraction that lies strictly between 0 and 3 at every pH, so for
    a non-negative concentration the charge is between 0 and three times
    it. *)
Theorem X21_phosphate_charge_range (p pH : R) :
  exists z : R,
    phosphateCharge (Num p) (Num pH) = Num (p * z) /\ 0 < z < 3.
Proof.
  exists (Spec.z pH). split; [apply phosphateCharge_Num | apply z_range].
Qed.

Lemma z_increasing (pH1 pH2 : R) : pH1 < pH2 -> Spec.z pH1 < Spec.z pH2.
Proof.
  intros Hp.
  destruct (z_as_fraction pH1) as (E1 & Hy & Ha & Hb & Hc).
  destruct (z_as_fraction pH2) as (E2 & Hx & _). cbv zeta in E1, E2.
  rewrite E1, E2.
  assert (Hxy : pow10 (- pH2) < pow10 (- pH1)) by (apply pow10_lt; lra).
  set (y := pow10 (- pH1)) in *. set (x := pow10 (- pH2)) in *.
  set (a := pow10 (- 1.915)) in *.
  set (b := a * pow10 (- 6.66)) in *. set (c := b * pow10 (- 11.78)) in *.
  clearbody c. clearbody b. clearbody a x y.
  destruct (cubic_pos _ _ _ _ Hx Ha Hb Hc) as (X3 & X2 & X1).
  destruct (cubic_pos _ _ _ _ Hy Ha Hb Hc) as (Y3 & Y2 & Y1).
  set (Dx := x * x * x + a * x * x + b * x + c).
  set (Dy := y * y * y + a * y * y + b * y + c).
  assert (HDx : 0 < Dx) by (unfold Dx; lra).
  assert (HDy : 0 < Dy) by (unfold Dy; lra).
  set (Nx := a * x * x + 2 * b * x + 3 * c).
  set (Ny := a * y * y + 2 * b * y + 3 * c).
  assert (Hcross : 0 < Nx * Dy - Ny * Dx).
  { replace (Nx * Dy - Ny * Dx)
      with ((y - x)
            * (a * (x * y) * (x * y) + a * b * (x * y)
               + 2 * a * c * (x + y) + 2 * b * (x * y) * (x + y) + b * c
               + 3 * c * (x * x + x * y + y * y)))
      by (unfold Nx, Ny, Dx, Dy; ring).
    assert (Hp1 : 0 < x * y) by (apply Rmult_lt_0_compat; assumption).
    assert (0 < a * (x * y) * (x * y))
      by (repeat apply Rmult_lt_0_compat; assumption).
    assert (0 < a * b * (x * y))
      by (repeat apply Rmult_lt_0_compat; assumption).
    assert (0 < 2 * a * c * (x + y))
      by (repeat apply Rmult_lt_0_compat; lra).
    assert (0 < 2 * b * (x * y) * (x + y))
      by (repeat apply Rmult_lt_0_compat; lra).
    assert (0 < b * c) by (apply Rmult_lt_0_compat; assumption).
    assert (0 < x * x) by (apply Rmult_lt_0_compat; assumption).
    assert (0 < y * y) by (apply Rmult_lt_0_compat; assumption).
    assert (0 < 3 * c * (x * x + x * y + y * y))
      by (repeat apply Rmult_lt_0_compat; lra).
    apply Rmult_lt_0_compat; lra. }
  apply (Rmult_lt_reg_r (Dx * Dy)); [apply Rmult_lt_0_compat; assumption |].
  replace (Ny / Dy * (Dx * Dy)) with (Ny * Dx) by (field; lra).
  replace (Nx / Dx * (Dx * Dy)) with (Nx * Dy) by (field; lra).
  lra.
Qed.

(** X22: for a positive phosphate concentration the phosphate charge is
    strictly increasing in pH. *)
Theorem X22_phosphate_charge_grows_with_pH (p pH1 pH2 : R) :
  0 < p -> pH1 < pH2 ->
  exists c1 c2 : R,
    phosphateCharge (Num p) (Num pH1) = Num c1
    /\ phosphateCharge (Num p) (Num pH2) = Num c2
    /\ c1 < c2.
Proof.
  intros Hp Hlt.
  exists (Spec.phosphate p pH1), (Spec.phosphate p pH2).
  rewrite !phosphateCharge_Num. repeat (split; [reflexivity |]).
  unfold Spec.phosphate. apply Rmult_lt_compat_l; [exact Hp |].
  apply z_increasing. exact Hlt.
Qed.

Lemma X22_phosphate_witness :
  exists c1 c2 : R,
    phosphateCharge (Num 1) (Num 7.0) = Num c1
    /\ phosphateCharge (Num 1) (Num 7.4) = Num c2
    /\ c1 < c2.
Proof. apply (X22_phosphate_charge_grows_with_pH 1 7.0 7.4); lra. Defined.

Lemma total_between (f c : Spec.group -> R) (l : list Spec.group) :
  l <> [] ->
  Forall (fun g => 0 < f g < c g) l ->
  0 < Spec.total f l < Spec.total c l.
Proof.
  intros Hne H. induction H as [| g l [Hg0 Hg1] Hl IH]; [contradiction |].
  cbn [Spec.total fold_right]. fold (Spec.total f l) (Spec.total c l).
  destruct l as [| g' l'].
  - cbn [Spec.total fold_right]. lra.
  - assert (Hn : g' :: l' <> []) by discriminate.
    specialize (IH Hn). lra.
Qed.

Lemma total_lt (f1 f2 : Spec.group -> R) (l : list Spec.group) :
  l <> [] ->
  Forall (fun g => f1 g < f2 g) l ->
  Spec.total f1 l < Spec.total f2 l.
Proof.
  intros Hne H. induction H as [| g l Hg Hl IH]; [contradiction |].
  cbn [Spec.total fold_right]. fold (Spec.total f1 l) (Spec.total f2 l).
  destruct l as [| g' l'].
  - cbn [Spec.total fold_right]. lra.
  - assert (Hn : g' :: l' <> []) by discriminate.
    specialize (IH Hn). lra.
Qed.

Lemma fraction_between (c e : R) : 0 < c -> 0 < c / (1 + pow10 e) < c.
Proof.
  intros Hc. pose proof (pow10_pos e) as He. split.
  - apply Rdiv_lt_0_compat; lra.
  - apply (Rmult_lt_reg_r (1 + pow10 e)); [lra |].
    unfold Rdiv. rewrite Rmult_assoc, Rinv_l by lra.
    assert (0 < c * pow10 e) by (apply Rmult_lt_0_compat; assumption).
    lra.
Qed.

Lemma fraction_decreasing (c e1 e2 : R) :
  0 < c -> e1 < e2 -> c / (1 + pow10 e2) < c / (1 + pow10 e1).
Proof.
  intros Hc He. pose proof (pow10_pos e1). pose proof (pow10_lt e1 e2 He).
  unfold Rdiv. apply Rmult_lt_compat_l; [exact Hc |].
  apply Rinv_lt_contravar; [apply Rmult_lt_0_compat; lra | lra].
Qed.

Lemma groups_populated :
  Forall (fun g => 0 < IZR (Spec.count g)) Spec.basic_groups
  /\ Forall (fun g => 0 < IZR (Spec.count g)) Spec.acidic_groups.
Proof.
  split; repeat constructor; cbn [Spec.count]; lra.
Qed.

Lemma residue_totals :
  residue_count Spec.basic_groups = 100
  /\ residue_count Spec.acidic_groups = 118.
Proof.
  unfold residue_count, Spec.total, Spec.basic_groups, Spec.acidic_groups.
  cbn [fold_right Spec.count]. split; lra.
Qed.

Lemma net_charge_range (pH : R) : -118 < Spec.net_charge pH < 100.
Proof.
  destruct groups_populated as [Hb Ha].
  destruct residue_totals as [Eb Ea].
  assert (B : 0 < Spec.total (Spec.basic_charge pH) Spec.basic_groups
              < residue_count Spec.basic_groups).
  { apply total_between; [discriminate |].
    eapply Forall_impl; [| exact Hb]. intros g Hg.
    apply fraction_between, Hg. }
  assert (A : 0 < Spec.total (Spec.acidic_charge pH) Spec.acidic_groups
              < residue_count Spec.acidic_groups).
  { apply total_between; [discriminate |].
    eapply Forall_impl; [| exact Ha]. intros g Hg.
    apply fraction_between, Hg. }
  unfold Spec.net_charge. lra.
Qed.

(** X23: the albumin charge is the albumin concentration in mmol/L
    (g/L over 66.5) times a charge per molecule that lies strictly between
    -100 and 118 at every pH: the 100 basic residues can at most cancel,
    the 118 acidic ones at most all be charged. *)
Theorem X23_albumin_charge_range (a pH : R) :
  exists n : R,
    albuminCharge (Num a) (Num pH) = Num (a / 66.5 * n) /\ -100 < n < 118.
Proof.
  exists (- Spec.net_charge pH). split.
  - rewrite albuminCharge_Num. f_equal. unfold Spec.albumin. ring.
  - pose proof (net_charge_range pH). lra.
Qed.

Lemma NB_increasing (pH1 pH2 : R) : pH1 < pH2 -> Spec.NB pH1 < Spec.NB pH2.
Proof.
  intros H. unfold Spec.NB.
  pose proof (fraction_decreasing 1 (pH1 - 6.9) (pH2 - 6.9) ltac:(lra)
                ltac:(lra)).
  lra.
Qed.

Lemma net_charge_decreasing (pH1 pH2 : R) :
  pH1 < pH2 -> Spec.net_charge pH2 < Spec.net_charge pH1.
Proof.
  intros H. destruct groups_populated as [Hb Ha].
  pose proof (NB_increasing pH1 pH2 H) as HNB.
  assert (B : Spec.total (Spec.basic_charge pH2) Spec.basic_groups
              < Spec.total (Spec.basic_charge pH1) Spec.basic_groups).
  { apply total_lt; [discriminate |].
    eapply Forall_impl; [| exact Hb]. intros g Hg.
    unfold Spec.basic_charge. apply fraction_decreasing; [exact Hg |].
    destruct (Spec.shifted g); lra. }
  assert (A : Spec.total (Spec.acidic_charge pH1) Spec.acidic_groups
              < Spec.total (Spec.acidic_charge pH2) Spec.acidic_groups).
  { apply total_lt; [discriminate |].
    eapply Forall_impl; [| exact Ha]. intros g Hg.
    unfold Spec.acidic_charge. apply fraction_decreasing; [exact Hg | lra]. }
  unfold Spec.net_charge. lra.
Qed.

(** X24: for a positive albumin concentration the albumin charge is
    strictly increasing in pH. *)
Theorem X24_albumin_charge_grows_with_pH (a pH1 pH2 : R) :
  0 < a -> pH1 < pH2 ->
  exists c1 c2 : R,
    albuminCharge (Num a) (Num pH1) = Num c1
    /\ albuminCharge (Num a) (Num pH2) = Num c2
    /\ c1 < c2.
Proof.
  intros Ha Hlt.
  exists (Spec.albumin a pH1), (Spec.albumin a pH2).
  rewrite !albuminCharge_Num. repeat (split; [reflexivity |]).
  unfold Spec.albumin.
  pose proof (net_charge_decreasing pH1 pH2 Hlt) as Hn.
  assert (Hm : 0 < a / 66.5) by (apply Rdiv_lt_0_compat; lra).
  assert (a / 66.5 * Spec.net_charge pH2 < a / 66.5 * Spec.net_charge pH1)
    by (apply Rmult_lt_compat_l; assumption).
  lra.
Qed.

Lemma X24_albumin_witness :
  exists c1 c2 : R,
    albuminCharge (Num 40) (Num 7.0) = Num c1
    /\ albuminCharge (Num 40) (Num 7.4) = Num c2
    /\ c1 < c2.
Proof. apply (X24_albumin_charge_grows_with_pH 40 7.0 7.4); lra. Defined.

(* ================================================================== *)
(** ** Readings that are not finite numbers *)
(* ================================================================== *)

















